(** * Tilt Pitch: the ingestion-and-dispatch pipeline of [pitch/pitch.py]

    A shallow embedding of the beacon decoder ([IBeaconParser.parse]), the
    producer callback ([_beacon_callback]), the bounded hand-off queue
    ([queue.Queue]) and the consumer ([_handle_pitch_queue],
    [_run_queue_consumer]), with the properties the specification states
    about them.

    Python exceptions are values of [exn] carried by the [result] monad;
    [try ... except] is a [match] on the result.  Printed lines and calls
    into collaborators are recorded, in order, in a list of [event]s. *)

From Stdlib Require Import ZArith NArith Lia Floats.
From Stdlib Require Import Strings.Byte Strings.Ascii Strings.String.
From stdpp Require Import base option list strings gmap.

Local Open Scope Z_scope.

(** ** Python exceptions and results *)

Module Py.

(** The exception classes that the modelled code can meet. *)
Inductive exn : Type :=
| IndexError                      (* sequence index out of range *)
| StructError                     (* struct.error: wrong buffer size *)
| ValueError                      (* uuid.UUID: bytes is not a 16-char string *)
| Full                            (* queue.Full *)
| Empty                           (* queue.Empty *)
| RateLimitedException            (* pitch.rate_limiter *)
| Exception (msg : string).       (* any other Exception raised by a sink *)

Inductive result (A : Type) : Type :=
| Ok (a : A)
| Raise (e : exn).
Arguments Ok {A} a.
Arguments Raise {A} e.

#[global] Instance result_ret : MRet result := fun _ a => Ok a.
#[global] Instance result_bind : MBind result := fun _ _ f m =>
  match m with
  | Ok a => f a
  | Raise e => Raise e
  end.

(** [seq[i]] for a non-negative index. *)
Definition getitem {A} (s : list A) (i : nat) : result A :=
  match s !! i with
  | Some a => Ok a
  | None => Raise IndexError
  end.

(** [seq[lo:hi]] for non-negative bounds: never raises, clips at the end. *)
Definition slice {A} (s : list A) (lo hi : nat) : list A :=
  take (hi - lo) (drop lo s).

End Py.
Import Py.

(** ** [struct.unpack(">16sHHb", buf)] *)

Module Struct.

(** Indexing a [bytes] object gives an integer in 0..255. *)
Definition byte_val (b : byte) : Z := Z.of_N (Byte.to_N b).

(** Big-endian unsigned integer held by a run of bytes. *)
Definition be_uint (bs : list byte) : Z :=
  foldl (fun acc b => acc * 256 + byte_val b) 0 bs.

(** Big-endian two's-complement integer held by a run of bytes. *)
Definition be_int (bs : list byte) : Z :=
  let v := be_uint bs in
  let half := 2 ^ (8 * Z.of_nat (length bs) - 1) in
  if v <? half then v else v - 2 * half.

(** The format [">16sHHb"] covers 16 + 2 + 2 + 1 = 21 bytes;
    any other buffer length is a [struct.error]. *)
Definition calcsize : nat := 21.

Definition unpack_16sHHb (buf : list byte)
  : result (list byte * Z * Z * Z) :=
  if bool_decide (length buf = calcsize) then
    Ok (slice buf 0 16,
        be_uint (slice buf 16 18),
        be_uint (slice buf 18 20),
        be_int (slice buf 20 21))
  else Raise StructError.

End Struct.

(** ** [str(uuid.UUID(bytes=b))] *)

Module Uuid.

Definition hex_digit (n : N) : ascii :=
  match String.get (N.to_nat n) "0123456789abcdef" with
  | Some c => c
  | None => "0"%char
  end.

(** Two lower-case hexadecimal digits per byte: ['%02x']. *)
Definition hex_of_byte (b : byte) : string :=
  String (hex_digit (Byte.to_N b / 16))
    (String (hex_digit (Byte.to_N b mod 16)) EmptyString).

(** ['%032x' % int.from_bytes(b, 'big')] for 16 bytes. *)
Definition hex (bs : list byte) : string :=
  foldr (fun b acc => hex_of_byte b +:+ acc) EmptyString bs.

(** [UUID.__str__]: the 32 digits grouped 8-4-4-4-12. *)
Definition format (h : string) : string :=
  substring 0 8 h +:+ "-" +:+ substring 8 4 h +:+ "-" +:+
  substring 12 4 h +:+ "-" +:+ substring 16 4 h +:+ "-" +:+
  substring 20 12 h.

(** [uuid.UUID(bytes=b)] raises ValueError unless [len(b) == 16]. *)
Definition str_of_bytes (bs : list byte) : result string :=
  if bool_decide (length bs = 16%nat) then Ok (format (hex bs))
  else Raise ValueError.

(** The way back, used to state that the string loses nothing. *)
Definition digit_val (c : ascii) : option N :=
  let n := N_of_ascii c in
  if (48 <=? n)%N && (n <=? 57)%N then Some (n - 48)%N
  else if (97 <=? n)%N && (n <=? 102)%N then Some (n - 87)%N
  else None.

Fixpoint unhex (s : string) : option (list byte) :=
  match s with
  | EmptyString => Some []
  | String c1 (String c2 rest) =>
      h ← digit_val c1;
      l ← digit_val c2;
      b ← Byte.of_N (h * 16 + l);
      bs ← unhex rest;
      Some (b :: bs)
  | String _ EmptyString => None
  end.

(** [uuid.UUID(s).bytes] on the canonical 36-character form. *)
Definition bytes_of_str (s : string) : option (list byte) :=
  unhex (substring 0 8 s +:+ substring 9 4 s +:+ substring 14 4 s +:+
         substring 19 4 s +:+ substring 24 12 s).

End Uuid.

(** ** [IBeaconParser] *)

Module IBeaconParser.

(** The [SimpleNamespace] that [parse] returns. *)
Record packet : Type := Packet {
  uuid : string;
  major : Z;
  minor : Z;
  tx_power : Z
}.

(** [parse] returns [None] for "not recognized". *)
Definition parse (manufacturer_data : list byte) : result (option packet) :=
  if bool_decide (length manufacturer_data < 23)%nat then Ok None
  else
    b0 ← getitem manufacturer_data 0;
    if bool_decide (Struct.byte_val b0 ≠ 0x02) then Ok None
    else
      b1 ← getitem manufacturer_data 1;
      if bool_decide (Struct.byte_val b1 ≠ 0x15) then Ok None
      else
        '(uuid_bytes, major, minor, tx_power) ←
          Struct.unpack_16sHHb (slice manufacturer_data 2 23);
        u ← Uuid.str_of_bytes uuid_bytes;
        Ok (Some (Packet u major minor tx_power)).

(** The fields that [parse] reads off a payload that passes both checks:
    bytes 2-17, 18-19, 20-21 and 22. *)
Definition decoded (d : list byte) : packet :=
  Packet (Uuid.format (Uuid.hex (slice d 2 18)))
         (Struct.be_uint (slice d 18 20))
         (Struct.be_uint (slice d 20 22))
         (Struct.be_int (slice d 22 23)).

End IBeaconParser.
Import IBeaconParser.

(** ** Statics of [pitch.py] *)

(** The identity table: UUID string to colour. *)
Definition uuid_to_colors : gmap string string :=
  list_to_map [
    ("a495bb20-c5b1-4b44-b512-1370f02d74de", "green");
    ("a495bb30-c5b1-4b44-b512-1370f02d74de", "black");
    ("a495bb10-c5b1-4b44-b512-1370f02d74de", "red");
    ("a495bb60-c5b1-4b44-b512-1370f02d74de", "blue");
    ("a495bb50-c5b1-4b44-b512-1370f02d74de", "orange");
    ("a495bb70-c5b1-4b44-b512-1370f02d74de", "yellow");
    ("a495bb40-c5b1-4b44-b512-1370f02d74de", "purple");
    ("a495bb80-c5b1-4b44-b512-1370f02d74de", "pink");
    ("a495bb40-c5b1-4b44-b512-1370f02d74df", "simulated")
  ].

(** Apple manufacturer id for iBeacons. *)
Definition APPLE_MANUFACTURER_ID : Z := 0x004C.

(** [int] to [float] as Python converts the left operand of [int * float];
    exact below 2^53, which covers every 16-bit [minor]. *)
Definition float_of_int (n : Z) : float :=
  if n <? 0 then PrimFloat.opp (PrimFloat.of_uint63 (Uint63.of_Z (- n)))
  else PrimFloat.of_uint63 (Uint63.of_Z n).

(** [gravity * .001]; the literal is the binary64 nearest to 0.001. *)
Definition _get_decimal_gravity (gravity : Z) : float :=
  PrimFloat.mul (float_of_int gravity) 0x1.0624dd2f1a9fcp-10%float.

(** ** [queue.Queue(maxsize)] *)

Module Queue.

Record t (A : Type) : Type := Make {
  maxsize : Z;
  items : list A
}.
Arguments Make {A} maxsize items.
Arguments maxsize {A} _.
Arguments items {A} _.

Section Ops.
Context {A : Type}.

Definition qsize (q : t A) : Z := Z.of_nat (length (items q)).

(** [not self._qsize()] *)
Definition empty (q : t A) : bool := bool_decide (qsize q = 0).

(** [0 < self.maxsize <= self._qsize()]: a queue whose [maxsize] is not
    positive is never full. *)
Definition full (q : t A) : bool :=
  bool_decide (0 < maxsize q) && bool_decide (maxsize q <= qsize q).

(** [put(item, block=False)] *)
Definition put_nowait (q : t A) (item : A) : result (t A) :=
  if bool_decide (0 < maxsize q) && bool_decide (maxsize q <= qsize q)
  then Raise Full
  else Ok (Make (maxsize q) (items q ++ [item])).

(** [get(timeout=...)] once the wait is over: the oldest item, or
    [queue.Empty] when nothing arrived. *)
Definition get (q : t A) : result (A * t A) :=
  match items q with
  | [] => Raise Empty
  | item :: rest => Ok (item, Make (maxsize q) rest)
  end.

End Ops.

End Queue.

(** The two settings of [PitchConfig] that [pitch.py] reads in the pipeline. *)
Record PitchConfig : Type := {
  queue_size : Z;
  queue_empty_sleep_seconds : Z
}.

(** ** The collaborators of [pitch.py]

    [TiltStatus] (pitch.models), the loaded [PitchConfig], the sinks and the
    clock are not part of the pipeline: the constructor
    [TiltStatus(color, temp, gravity, config)], its two validity flags,
    [time.time()] and [time.sleep()] are an interface that the pipeline is
    written against.  [World] is everything outside the queue: the state of
    the sinks and the clock, which is read in whole seconds. *)

Class Collaborators : Type := {
  TiltStatus : Type;
  World : Type;
  config : PitchConfig;
  new_TiltStatus : string -> Z -> float -> PitchConfig -> TiltStatus;
  temp_valid : TiltStatus -> bool;
  gravity_valid : TiltStatus -> bool;
  time_time : World -> Z;
  time_sleep : Z -> World -> World
}.

(** ** The pipeline *)

Section Pitch.

Context `{Collaborators}.

(** A cloud provider, as far as the dispatch loop uses it: [str(provider)]
    and [provider.update(tilt_status)], which changes the world and
    returns or raises. *)
Record Provider : Type := {
  name : string;
  update : TiltStatus -> World -> World * result unit
}.

(** What the pipeline does that can be observed, in program order. *)
Inductive event : Type :=
| Built (tilt_status : TiltStatus)          (* TiltStatus(...) was constructed *)
| IgnoredTemperature (tilt_status : TiltStatus)
    (* "Ignoring broadcast due to invalid temperature: ..." *)
| IgnoredGravity (tilt_status : TiltStatus)
    (* "Ignoring broadcast due to invalid gravity: ..." *)
| QueueIsFull (length : Z)
    (* "Queue is full (... events), scans will be ignored" *)
| Update (provider : Provider) (tilt_status : TiltStatus)
    (* provider.update(tilt_status) was called *)
| Updated (provider : Provider) (tilt_status : TiltStatus)
    (* "Updated provider ... for color ... took ... seconds" *)
| SkippedRateLimited (provider : Provider) (tilt_status : TiltStatus)
    (* "Skipping update due to rate limiting for provider ..." *)
| Printed (e : exn)                          (* print(e) *)
| Json (tilt_status : TiltStatus)            (* print(tilt_status.json()) *)
| ConsumerError (e : exn)                    (* "Error in consumer loop: ..." *)
| Slept (seconds : Z).                       (* time.sleep(seconds) *)

(** The queue created at import time. *)
Definition pitch_q0 : Queue.t TiltStatus := Queue.Make (queue_size config) [].

(** *** Producer *)

Definition _beacon_callback (pitch_q : Queue.t TiltStatus) (p : packet)
  : result (Queue.t TiltStatus * list event) :=
  if Queue.full pitch_q then Ok (pitch_q, [])
  else
    let uuid_val := uuid p in
    match uuid_to_colors !! uuid_val with
    | Some color =>
        if bool_decide (color <> EmptyString) then
          let tilt_status :=
            new_TiltStatus color (major p) (_get_decimal_gravity (minor p)) config in
          if negb (temp_valid tilt_status) then
            Ok (pitch_q, [Built tilt_status; IgnoredTemperature tilt_status])
          else if negb (gravity_valid tilt_status) then
            Ok (pitch_q, [Built tilt_status; IgnoredGravity tilt_status])
          else
            q ← Queue.put_nowait pitch_q tilt_status;
            Ok (q, [Built tilt_status])
        else Ok (pitch_q, [])
    | None => Ok (pitch_q, [])
    end.

(** The Reading that [_beacon_callback] builds for a packet of a known
    colour: [TiltStatus(color, packet.major,
    _get_decimal_gravity(packet.minor), config)]. *)
Definition reading_of (color : string) (p : packet) : TiltStatus :=
  new_TiltStatus color (major p) (_get_decimal_gravity (minor p)) config.

(** A Reading of a colour of the identity table with both flags true. *)
Definition recognized_and_valid (tilt_status : TiltStatus) : Prop :=
  exists p color,
    uuid_to_colors !! uuid p = Some color /\
    tilt_status = reading_of color p /\
    temp_valid tilt_status = true /\
    gravity_valid tilt_status = true.

(** The scanner's callback: [manufacturer_data] maps company ids to
    payloads. *)
Definition bleak_callback (pitch_q : Queue.t TiltStatus)
    (manufacturer_data : gmap Z (list byte))
  : result (Queue.t TiltStatus * list event) :=
  match manufacturer_data !! APPLE_MANUFACTURER_ID with
  | Some raw_data =>
      packet ← parse raw_data;
      match packet with
      | Some p => _beacon_callback pitch_q p
      | None => Ok (pitch_q, [])
      end
  | None => Ok (pitch_q, [])
  end.

(** *** Consumer *)

(** The body of [for provider in enabled_providers], with its [try]. *)
Definition update_provider (console_log : bool) (tilt_status : TiltStatus)
    (provider : Provider) (w : World) : World * list event :=
  let '(w', r) := update provider tilt_status w in
  match r with
  | Ok _ =>
      (w', Update provider tilt_status ::
           if console_log then [Updated provider tilt_status] else [])
  | Raise RateLimitedException =>
      (w', [Update provider tilt_status; SkippedRateLimited provider tilt_status])
  | Raise e =>
      (w', [Update provider tilt_status; Printed e])
  end.

Fixpoint update_providers (console_log : bool) (tilt_status : TiltStatus)
    (enabled_providers : list Provider) (w : World) : World * list event :=
  match enabled_providers with
  | [] => (w, [])
  | provider :: rest =>
      let '(w1, ev1) := update_provider console_log tilt_status provider w in
      let '(w2, ev2) := update_providers console_log tilt_status rest w1 in
      (w2, ev1 ++ ev2)
  end.

Definition _handle_pitch_queue (enabled_providers : list Provider)
    (console_log : bool) (pitch_q : Queue.t TiltStatus) (w : World)
  : result (Queue.t TiltStatus * World * list event) :=
  if bool_decide (0 < queue_empty_sleep_seconds config) && Queue.empty pitch_q
  then
    Ok (pitch_q, time_sleep (queue_empty_sleep_seconds config) w,
        [Slept (queue_empty_sleep_seconds config)])
  else
    let warning :=
      if Queue.full pitch_q then [QueueIsFull (Queue.qsize pitch_q)] else [] in
    match Queue.get pitch_q with
    | Raise Empty => Ok (pitch_q, w, warning)
    | Raise e => Raise e
    | Ok (tilt_status, q) =>
        let '(w', ev) :=
          update_providers console_log tilt_status enabled_providers w in
        Ok (q, w', warning ++ ev ++
                   if console_log then [Json tilt_status] else [])
    end.

(** *** The two execution contexts

    The ingestion context calls [bleak_callback] (live scanner) or
    [_beacon_callback] (simulator); the dispatch context runs
    [_run_queue_consumer].  They share [pitch_q] only.  A run of the
    program is an interleaving of producer calls and passes through the
    consumer's [while True]; each is taken as one step. *)

Section Run.

Variable enabled_providers : list Provider.
Variable console_log : bool.
Variable timeout_seconds : Z.
Variable start_time : Z.

Record System : Type := {
  pitch_q : Queue.t TiltStatus;
  world : World;
  returned : bool;          (* [_run_queue_consumer] has returned *)
  trace : list event
}.

(** One pass through the body of [while True]: the [try], the timeout
    test, the [except Exception].  The last component tells whether the
    pass ended in [return]. *)
Definition consumer_pass (q : Queue.t TiltStatus) (w : World)
  : Queue.t TiltStatus * World * list event * bool :=
  match _handle_pitch_queue enabled_providers console_log q w with
  | Ok (q', w', ev) =>
      (q', w', ev,
       bool_decide (0 < timeout_seconds)
       && bool_decide (timeout_seconds < time_time w' - start_time))
  | Raise e =>
      (q, time_sleep 1 w, [ConsumerError e; Slept 1], false)
  end.

(** [while True] with a bound on the number of passes: the loop stops at
    the first pass that ends in [return]; the flag tells whether it did. *)
Fixpoint consumer_loop (fuel : nat) (q : Queue.t TiltStatus) (w : World)
  : Queue.t TiltStatus * World * list event * bool :=
  match fuel with
  | O => (q, w, [], false)
  | S fuel' =>
      let '(q1, w1, ev1, ret) := consumer_pass q w in
      if ret then (q1, w1, ev1, true)
      else
        let '(q2, w2, ev2, ret') := consumer_loop fuel' q1 w1 in
        (q2, w2, ev1 ++ ev2, ret')
  end.

Inductive action : Type :=
| Advertise (manufacturer_data : gmap Z (list byte))  (* live scanner *)
| Beacon (p : packet)                                 (* simulator *)
| Consume.                                            (* consumer pass *)

Definition step (a : action) (s : System) : result System :=
  match a with
  | Advertise manufacturer_data =>
      '(q, ev) ← bleak_callback (pitch_q s) manufacturer_data;
      Ok {| pitch_q := q; world := world s; returned := returned s;
            trace := trace s ++ ev |}
  | Beacon p =>
      '(q, ev) ← _beacon_callback (pitch_q s) p;
      Ok {| pitch_q := q; world := world s; returned := returned s;
            trace := trace s ++ ev |}
  | Consume =>
      if returned s then Ok s
      else
        let '(q, w, ev, ret) := consumer_pass (pitch_q s) (world s) in
        Ok {| pitch_q := q; world := w; returned := ret;
              trace := trace s ++ ev |}
  end.

Fixpoint run (schedule : list action) (s : System) : result System :=
  match schedule with
  | [] => Ok s
  | a :: rest => s' ← step a s; run rest s'
  end.

End Run.

(** [_run_queue_consumer] reads the clock once, then loops. *)
Definition _run_queue_consumer (fuel : nat) (enabled_providers : list Provider)
    (console_log : bool) (timeout_seconds : Z)
    (q : Queue.t TiltStatus) (w : World)
  : Queue.t TiltStatus * World * list event * bool :=
  let start_time := time_time w in
  consumer_loop enabled_providers console_log timeout_seconds start_time
    fuel q w.

(** The calls of [update] recorded in a trace, in order. *)
Definition calls (ev : list event) : list (Provider * TiltStatus) :=
  omap (fun e => match e with
                 | Update provider tilt_status => Some (provider, tilt_status)
                 | _ => None
                 end) ev.

(** What a cycle must call for one Reading: every provider, in order. *)
Definition fan_out (enabled_providers : list Provider)
    (tilt_status : TiltStatus) : list (Provider * TiltStatus) :=
  map (fun provider => (provider, tilt_status)) enabled_providers.

(** The world after the [update] of every provider of a list with one
    Reading, each called in the world that the one before it left. *)
Definition updated_world (tilt_status : TiltStatus)
    (providers : list Provider) (w : World) : World :=
  foldl (fun w provider => (update provider tilt_status w).1) w providers.

(** The line that the [except] clauses print for an exception of a sink. *)
Definition failure_line (provider : Provider) (tilt_status : TiltStatus)
    (e : exn) : event :=
  match e with
  | RateLimitedException => SkippedRateLimited provider tilt_status
  | _ => Printed e
  end.

(** The printed warning lines of a trace. *)
Definition warnings (ev : list event) : list Z :=
  omap (fun e => match e with QueueIsFull n => Some n | _ => None end) ev.

End Pitch.

(** ** The documented byte layout, as the specification words it

    "type marker byte 0 = 0x02, length byte 1 = 0x15, 16-byte identifier,
    2-byte major, 2-byte minor, 1-byte signed tx power -- all integers
    big-endian".  [payload] builds such an advertisement; it is the
    counterpart of [parse] and is not taken from the source. *)

Module Layout.

(** The byte whose value is [n mod 256]. *)
Definition byte_of_Z (n : Z) : byte :=
  default x00 (Byte.of_N (Z.to_N (n mod 256))).

Definition u16_be (n : Z) : list byte := [byte_of_Z (n / 256); byte_of_Z n].

Definition i8 (n : Z) : list byte := [byte_of_Z n].

Definition payload (identifier : list byte) (major minor tx_power : Z)
  : list byte :=
  [x02; x15] ++ identifier ++ u16_be major ++ u16_be minor ++ i8 tx_power.

End Layout.

(** ** The warning condition, as the specification words it

    "If the queue was found at capacity during the previous insert
    attempts": [found_at_capacity q attempts] tells whether one of the
    producer calls [attempts], made in this order on the queue [q] left by
    the last removal, met a full queue; [after_attempts] is the queue they
    leave. *)

Section InsertAttempts.

Context `{Collaborators}.

Fixpoint found_at_capacity (q : Queue.t TiltStatus) (attempts : list packet)
  : bool :=
  match attempts with
  | [] => false
  | p :: rest =>
      Queue.full q ||
      match _beacon_callback q p with
      | Ok (q', _) => found_at_capacity q' rest
      | Raise _ => false
      end
  end.

Fixpoint after_attempts (q : Queue.t TiltStatus) (attempts : list packet)
  : Queue.t TiltStatus :=
  match attempts with
  | [] => q
  | p :: rest =>
      match _beacon_callback q p with
      | Ok (q', _) => after_attempts q' rest
      | Raise _ => q
      end
  end.

End InsertAttempts.

(** ** The cycle, one access to the queue at a time

    In a cycle the dispatch context reads the queue three times:
    [pitch_q.empty()] at line 199, [pitch_q.full()] at line 203 and
    [pitch_q.get(timeout=1)] at line 208, which waits up to a second for a
    Reading when there is none.  The ingestion context runs between these
    accesses, and while [get] waits.  Here a pass of the consumer is split
    at its three accesses, and the producer's calls are interleaved with
    them: the calls scheduled while the consumer is at [AtGet] are those
    made before [get] returns.  As in [_handle_pitch_queue], the time that
    [get] waits is not counted in the world. *)

Section Statements.

Context `{Collaborators}.
Variable enabled_providers : list Provider.
Variable console_log : bool.
Variable timeout_seconds : Z.
Variable start_time : Z.

(** Where the consumer is in its pass. *)
Inductive position : Type :=
| AtEmptyTest      (* before [pitch_q.empty()], line 199 *)
| AtFullTest       (* before [pitch_q.full()], line 203 *)
| AtGet.           (* in [pitch_q.get(timeout=1)], line 208 *)

Record Threads : Type := {
  shared : System;
  consumer : position
}.

(** The timeout test at the end of a pass of [_run_queue_consumer]. *)
Definition timed_out (w : World) : bool :=
  bool_decide (0 < timeout_seconds)
  && bool_decide (timeout_seconds < time_time w - start_time).

(** The consumer goes on to its next access of the queue: from the test
    of line 199 to the sleep and the end of the pass, or to the test of
    line 203; from there, with the warning if the queue is full, to
    [get]; from [get], when it returns a Reading or gives up with [Empty],
    through the dispatch to the end of the pass. *)
Definition consumer_step (t : Threads) : Threads :=
  let s := shared t in
  if returned s then t
  else
    match consumer t with
    | AtEmptyTest =>
        if bool_decide (0 < queue_empty_sleep_seconds config)
           && Queue.empty (pitch_q s)
        then
          let w := time_sleep (queue_empty_sleep_seconds config) (world s) in
          {| shared :=
               {| pitch_q := pitch_q s; world := w; returned := timed_out w;
                  trace := trace s
                           ++ [Slept (queue_empty_sleep_seconds config)] |};
             consumer := AtEmptyTest |}
        else {| shared := s; consumer := AtFullTest |}
    | AtFullTest =>
        {| shared :=
             {| pitch_q := pitch_q s; world := world s;
                returned := returned s;
                trace := trace s
                         ++ if Queue.full (pitch_q s)
                            then [QueueIsFull (Queue.qsize (pitch_q s))]
                            else [] |};
           consumer := AtGet |}
    | AtGet =>
        match Queue.get (pitch_q s) with
        | Raise Empty =>
            {| shared :=
                 {| pitch_q := pitch_q s; world := world s;
                    returned := timed_out (world s); trace := trace s |};
               consumer := AtEmptyTest |}
        | Raise e =>
            {| shared :=
                 {| pitch_q := pitch_q s; world := time_sleep 1 (world s);
                    returned := false;
                    trace := trace s ++ [ConsumerError e; Slept 1] |};
               consumer := AtEmptyTest |}
        | Ok (tilt_status, q) =>
            let '(w, ev) :=
              update_providers console_log tilt_status enabled_providers
                (world s) in
            {| shared :=
                 {| pitch_q := q; world := w; returned := timed_out w;
                    trace := trace s ++ ev
                             ++ if console_log then [Json tilt_status]
                                else [] |};
               consumer := AtEmptyTest |}
        end
    end.

(** A step of one of the two contexts: a call of the producer, or the
    consumer going on to its next access. *)
Definition thread_step (a : action) (t : Threads) : result Threads :=
  match a with
  | Consume => Ok (consumer_step t)
  | _ =>
      s ← step enabled_providers console_log timeout_seconds start_time a
            (shared t);
      Ok {| shared := s; consumer := consumer t |}
  end.

Fixpoint interleave (schedule : list action) (t : Threads)
  : result Threads :=
  match schedule with
  | [] => Ok t
  | a :: rest => t' ← thread_step a t; interleave rest t'
  end.

(** The step is the consumer's test of [pitch_q.full()]. *)
Definition is_full_test (a : action) (t : Threads) : bool :=
  match a, consumer t with
  | Consume, AtFullTest => negb (returned (shared t))
  | _, _ => false
  end.

End Statements.

(** ** A concrete set of collaborators, for the examples *)

Module Demo.

(** Modelled from the spec: [TiltStatus] of pitch.models is not among the
    sources.  A Reading carries the logical name, the temperature
    ("major" used directly), the gravity ("minor" divided by 1000) and two
    validity flags computed from fixed acceptable ranges; a value outside
    its range sets the flag false.  The ranges below, 32..212 F and
    0.7..1.4, are example values. *)
Record reading : Type := Reading {
  color : string;
  temp_fahrenheit : Z;
  gravity : float;
  temp_ok : bool;
  gravity_ok : bool
}.

Definition make (color : string) (temp : Z) (gravity : float)
    (_ : PitchConfig) : reading :=
  {| color := color;
     temp_fahrenheit := temp;
     gravity := gravity;
     temp_ok := (32 <? temp) && (temp <? 212);
     gravity_ok := PrimFloat.ltb 0x1.6666666666666p-1%float gravity
                   && PrimFloat.ltb gravity 0x1.6666666666666p+0%float |}.

(** The world of the examples is the clock, in seconds. *)
Definition collaborators (queue_size idle : Z) : Collaborators :=
  {| TiltStatus := reading;
     World := Z;
     config := {| queue_size := queue_size;
                  queue_empty_sleep_seconds := idle |};
     new_TiltStatus := make;
     temp_valid := temp_ok;
     gravity_valid := gravity_ok;
     time_time := fun w => w;
     time_sleep := fun seconds w => w + seconds |}.

Section Sinks.
Variables queue_size idle : Z.

(** A sink that always succeeds, after one second. *)
Definition steady : @Provider (collaborators queue_size idle) :=
  @Build_Provider (collaborators queue_size idle) "steady"
    (fun (_ : reading) (w : Z) => (w + 1, Ok ())).

(** A sink that always fails. *)
Definition broken : @Provider (collaborators queue_size idle) :=
  @Build_Provider (collaborators queue_size idle) "broken"
    (fun (_ : reading) (w : Z) => (w, Raise (Exception "connection refused"))).

(** A sink that always reports rate limiting. *)
Definition limited : @Provider (collaborators queue_size idle) :=
  @Build_Provider (collaborators queue_size idle) "limited"
    (fun (_ : reading) (w : Z) => (w, Raise RateLimitedException)).
End Sinks.

(** The advertisement of a green Tilt: 70 F, minor 04 0b, tx power b8. *)
Definition green_payload : list byte :=
  [x02; x15;
   xa4; x95; xbb; x20; xc5; xb1; x4b; x44;
   xb5; x12; x13; x70; xf0; x2d; x74; xde;
   x00; x46; x04; x0b; xb8].

Definition green_id : list byte :=
  [xa4; x95; xbb; x20; xc5; xb1; x4b; x44;
   xb5; x12; x13; x70; xf0; x2d; x74; xde].

Definition green_packet : packet :=
  Packet "a495bb20-c5b1-4b44-b512-1370f02d74de" 70 1035 (-72).

(** The Reading that the pipeline builds from [green_packet]. *)
Definition green_reading (queue_size idle : Z) : reading :=
  make "green" 70 (_get_decimal_gravity 1035)
       {| queue_size := queue_size; queue_empty_sleep_seconds := idle |}.

(** A Reading of the red Tilt. *)
Definition red_reading (queue_size idle : Z) : reading :=
  make "red" 68 (_get_decimal_gravity 1042)
       {| queue_size := queue_size; queue_empty_sleep_seconds := idle |}.

End Demo.

(** The example collaborators with a queue of capacity 1 and no idle
    sleep. *)
Definition demo : Collaborators := Demo.collaborators 1 0.


(** ** The inverse table and the simulator *)

(** The items of [uuid_to_colors], in the order of the dict literal. *)
Definition uuid_to_colors_items : list (string * string) := [
  ("a495bb20-c5b1-4b44-b512-1370f02d74de", "green");
  ("a495bb30-c5b1-4b44-b512-1370f02d74de", "black");
  ("a495bb10-c5b1-4b44-b512-1370f02d74de", "red");
  ("a495bb60-c5b1-4b44-b512-1370f02d74de", "blue");
  ("a495bb50-c5b1-4b44-b512-1370f02d74de", "orange");
  ("a495bb70-c5b1-4b44-b512-1370f02d74de", "yellow");
  ("a495bb40-c5b1-4b44-b512-1370f02d74de", "purple");
  ("a495bb80-c5b1-4b44-b512-1370f02d74de", "pink");
  ("a495bb40-c5b1-4b44-b512-1370f02d74df", "simulated")
].

(** [dict((v, k) for k, v in uuid_to_colors.items())]: the items are
    inserted in order, a later one replacing an earlier one of the same
    colour. *)
Definition colors_to_uuid : gmap string string :=
  foldl (fun m kv => <[kv.2 := kv.1]> m) ∅ uuid_to_colors_items.

(** The [argparse.Namespace] of [_start_beacon_simulation]:
    [colors_to_uuid['simulated']], major 70, minor 1035.  [None] stands for
    the [KeyError] of the lookup.  The namespace has no [tx_power]; the
    field is a parameter here, and [_beacon_callback] never reads it. *)
Definition fake_packet (tx_power : Z) : option packet :=
  u ← colors_to_uuid !! "simulated";
  Some (Packet u 70 1035 tx_power).

Section Simulator.

Context `{Collaborators}.

(** The first [fuel] passes of the simulator's [while True]: a producer
    call with the fake packet, then a sleep of a quarter second, which
    touches nothing of the pipeline. *)
Fixpoint simulation_loop (fuel : nat) (fake : packet)
    (pitch_q : Queue.t TiltStatus)
  : result (Queue.t TiltStatus * list event) :=
  match fuel with
  | O => Ok (pitch_q, [])
  | S fuel' =>
      '(q1, ev1) ← _beacon_callback pitch_q fake;
      '(q2, ev2) ← simulation_loop fuel' fake q1;
      Ok (q2, ev1 ++ ev2)
  end.

Definition _start_beacon_simulation (fuel : nat) (tx_power : Z)
    (pitch_q : Queue.t TiltStatus)
  : option (result (Queue.t TiltStatus * list event)) :=
  fake ← fake_packet tx_power;
  Some (simulation_loop fuel fake pitch_q).

(** The Readings that a trace shows entering the queue: those built with
    both flags true. *)
Definition accepted (ev : list event) : list TiltStatus :=
  omap (fun e => match e with
                 | Built tilt_status =>
                     if temp_valid tilt_status && gravity_valid tilt_status
                     then Some tilt_status else None
                 | _ => None
                 end) ev.

End Simulator.


(** ** Start-up: [pitch_main] up to the choice of the mode *)

Section Startup.

Context `{Collaborators}.

(** A cloud provider as [pitch_main] sees it (abstractions/cloud_provider):
    [enabled()], [start()], which returns a message, nothing, or raises,
    and what the dispatch loop uses of it. *)
Record CloudProvider : Type := {
  sink : Provider;
  enabled : World -> bool;
  start : World -> World * result (option string)
}.

Inductive startup_event : Type :=
| Banner                                    (* _start_message() *)
| Starting                                  (* "Starting..." *)
| StartCalled (provider : CloudProvider)    (* provider.start() was called *)
| Started (provider : CloudProvider) (message : string).
                                            (* "...started: {} {}" *)

(** [_get_webhook_providers]: one [WebhookCloudProvider(url, config)] per
    configured url, appended in order.  The class belongs to the providers
    package; its constructor is a parameter. *)
Definition _get_webhook_providers
    (WebhookCloudProvider : string -> CloudProvider)
    (webhook_urls : list string) : list CloudProvider :=
  foldl (fun webhook_providers url =>
           webhook_providers ++ [WebhookCloudProvider url])
        [] webhook_urls.

(** [for provider in providers: if provider.enabled(): ...] with the list
    [enabled_providers] built so far.  An exception of [start()] leaves
    the loop and [pitch_main]. *)
Fixpoint start_providers (providers enabled_providers : list CloudProvider)
    (w : World) : World * list startup_event * result (list CloudProvider) :=
  match providers with
  | [] => (w, [], Ok enabled_providers)
  | provider :: rest =>
      if enabled provider w then
        let enabled_providers := enabled_providers ++ [provider] in
        let '(w1, r) := start provider w in
        match r with
        | Ok provider__start_message =>
            let provider__start_message :=
              default EmptyString provider__start_message in
            let '(w2, ev, res) := start_providers rest enabled_providers w1 in
            (w2,
             StartCalled provider :: Started provider provider__start_message
             :: ev,
             res)
        | Raise e => (w1, [StartCalled provider], Raise e)
        end
      else start_providers rest enabled_providers w
  end.

(** What [pitch_main] leaves behind before it starts the threads: the
    module-level list [normal_providers], the list object that the caller
    passed, the world, what was printed and called, and the enabled
    providers or the exception. *)
Record startup : Type := {
  normal_providers_after : list CloudProvider;
  providers_after : list CloudProvider;
  world_after : World;
  startup_trace : list startup_event;
  enabled_providers_or_error : result (list CloudProvider)
}.

(** [providers] is [None] or a list object of the caller's, other than
    [normal_providers]; [providers.extend] changes the object in place,
    hence [normal_providers] itself when [providers] is [None]. *)
Definition pitch_main_startup (providers : option (list CloudProvider))
    (normal_providers : list CloudProvider)
    (WebhookCloudProvider : string -> CloudProvider)
    (webhook_urls : list string) (w : World) : startup :=
  let providers1 :=
    match providers with
    | None => normal_providers
    | Some l => l
    end in
  let webhook_providers :=
    _get_webhook_providers WebhookCloudProvider webhook_urls in
  let providers2 :=
    match webhook_providers with
    | [] => providers1
    | _ => providers1 ++ webhook_providers
    end in
  let '(w', ev, res) := start_providers providers2 [] w in
  {| normal_providers_after :=
       match providers with
       | None => providers2
       | Some _ => normal_providers
       end;
     providers_after := providers2;
     world_after := w';
     startup_trace := Banner :: Starting :: ev;
     enabled_providers_or_error := res |}.

(** *** The list objects of [pitch_main]

    [providers] is a reference to a list object: [pitch_main] is called
    with [None], with the module-level list [normal_providers] itself, or
    with a list object of the caller's.  [providers.extend] changes the
    object it is called on, for everyone who holds it. *)
Inductive list_ref : Type :=
| NormalProviders       (* the module-level list [normal_providers] *)
| CallerList.           (* a list object of the caller's *)

Record lists : Type := {
  normal_providers_object : list CloudProvider;
  caller_object : list CloudProvider
}.

Definition deref (objects : lists) (r : list_ref) : list CloudProvider :=
  match r with
  | NormalProviders => normal_providers_object objects
  | CallerList => caller_object objects
  end.

(** [r.extend(more)] *)
Definition extend (objects : lists) (r : list_ref)
    (more : list CloudProvider) : lists :=
  match r with
  | NormalProviders =>
      {| normal_providers_object := normal_providers_object objects ++ more;
         caller_object := caller_object objects |}
  | CallerList =>
      {| normal_providers_object := normal_providers_object objects;
         caller_object := caller_object objects ++ more |}
  end.

(** [pitch_main] up to the choice of the mode, on the list objects: the
    objects afterwards, the world, what was printed and called, and the
    enabled providers or the exception. *)
Definition pitch_main_objects (providers : option list_ref)
    (objects : lists)
    (WebhookCloudProvider : string -> CloudProvider)
    (webhook_urls : list string) (w : World)
  : lists * World * list startup_event * result (list CloudProvider) :=
  let providers :=
    match providers with
    | None => NormalProviders
    | Some r => r
    end in
  let webhook_providers :=
    _get_webhook_providers WebhookCloudProvider webhook_urls in
  let objects :=
    match webhook_providers with
    | [] => objects
    | _ => extend objects providers webhook_providers
    end in
  let '(w', ev, res) := start_providers (deref objects providers) [] w in
  (objects, w', Banner :: Starting :: ev, res).

(** The providers whose [start()] a trace shows, in order. *)
Definition started (ev : list startup_event) : list CloudProvider :=
  omap (fun e => match e with
                 | StartCalled provider => Some provider
                 | _ => None
                 end) ev.

End Startup.

(** ** The live scanner: [_run_bleak_scanner] *)

Section Scanner.

Context `{Collaborators}.

(** [await scanner.start()], [await scanner.stop()], and whether the
    [asyncio.sleep] that begins in a world is cancelled. *)
Variable scanner_start : World -> World * result unit.
Variable scanner_stop : World -> World.
Variable cancelled : World -> bool.

Inductive scan_event : Type :=
| ScannerStartedLine       (* "...started: Tilt scanner" *)
| ScannerStart             (* scanner.start() *)
| ReadyLine                (* "Ready! Listening for beacons" *)
| ScannerStop              (* scanner.stop() *)
| ScannerStoppedLine.      (* "...stopped: Scanner" *)

(** The [while True] of the scanner, at most [fuel] passes: [Some w] when
    the loop was left, by [break] or by [CancelledError], in world [w];
    [None] when it is still running. *)
Fixpoint scan_loop (fuel : nat) (timeout_seconds start_time : Z) (w : World)
  : option World :=
  match fuel with
  | O => None
  | S fuel' =>
      if cancelled w then Some w
      else
        let w1 := time_sleep 1 w in
        if bool_decide (0 < timeout_seconds)
           && bool_decide (timeout_seconds < time_time w1 - start_time)
        then Some w1
        else scan_loop fuel' timeout_seconds start_time w1
  end.

(** An exception of [scanner.start()] leaves the function before the
    [try]; the [finally] stops the scanner. *)
Definition _run_bleak_scanner (fuel : nat) (timeout_seconds : Z) (w : World)
  : option (World * list scan_event * result unit) :=
  let '(w1, r) := scanner_start w in
  match r with
  | Raise e => Some (w1, [ScannerStartedLine; ScannerStart], Raise e)
  | Ok _ =>
      let start_time := time_time w1 in
      w2 ← scan_loop fuel timeout_seconds start_time w1;
      Some (scanner_stop w2,
            [ScannerStartedLine; ScannerStart; ReadyLine;
             ScannerStop; ScannerStoppedLine],
            Ok ())
  end.

End Scanner.


(** ** [providers/influxdb2.py]: [InfluxDb2CloudProvider] *)

Module InfluxDb2.

(** The settings that the provider reads.  [influxdb2_retries] and
    [influxdb2_retry_backoff_seconds] are read with [getattr] and a
    default, so they may be absent. *)
Record Config : Type := {
  influxdb2_url : option string;
  influxdb2_bucket : string;
  influxdb_batch_size : Z;
  influxdb2_retries : option Z;
  influxdb2_retry_backoff_seconds : option Z
}.

(** The dict that [get_point] builds; [Value] is the type of the numeric
    attributes of a [TiltStatus]. *)
Record Point (Value : Type) : Type := {
  measurement : string;
  tags : list (string * string);
  fields : list (string * Value)
}.
Arguments measurement {Value} _.
Arguments tags {Value} _.
Arguments fields {Value} _.

Inductive influx_event (Value : Type) : Type :=
| SkippingLine                  (* "Batch size not met yet, skipping." *)
| SendingLine                   (* "Sending data to influxdb2" *)
| Write (bucket : string) (record : list (Point Value))
                                (* write_api.write(bucket, record, ...) *)
| SucceededLine (attempt : Z)   (* "InfluxDB write succeeded on attempt ..." *)
| FailedLine (attempt : Z) (e : exn)
                                (* "InfluxDB write attempt ... failed: ..." *)
| RetryingLine (sleep_time : Z) (* "Retrying in ... seconds..." *)
| Sleep (sleep_time : Z)        (* time.sleep(sleep_time) *)
| InterruptedLine               (* "Retry sleep interrupted by user." *)
| AllFailedLine.                (* "All InfluxDB write attempts failed ..." *)
Arguments SkippingLine {Value}.
Arguments SendingLine {Value}.
Arguments Write {Value} bucket record.
Arguments SucceededLine {Value} attempt.
Arguments FailedLine {Value} attempt e.
Arguments RetryingLine {Value} sleep_time.
Arguments Sleep {Value} sleep_time.
Arguments InterruptedLine {Value}.
Arguments AllFailedLine {Value}.

Section Provider.

Context `{Collaborators}.
Context {Value Server : Type}.

(** The attributes of [TiltStatus] that [get_point] reads. *)
Variable color name : TiltStatus -> string.
Variable temp_fahrenheit temp_celsius gravity degrees_plato
         alcohol_by_volume apparent_attenuation : TiltStatus -> Value.

(** The server and the clock: [write_api.write], which returns or raises
    an [Exception], and [time.sleep], which returns or is interrupted from
    the keyboard ([true]). *)
Variable write :
  string -> list (Point Value) -> Server -> Server * result unit.
Variable sleep : Z -> Server -> Server * bool.

Variable config : Config.

(** [enabled()] returns the url; [pitch_main] tests its truth value. *)
Definition enabled : bool :=
  match influxdb2_url config with
  | Some url => bool_decide (url <> EmptyString)
  | None => false
  end.

Definition get_point (tilt_status : TiltStatus) : Point Value :=
  {| measurement := "tilt";
     tags := [("color", color tilt_status); ("name", name tilt_status)];
     fields := [("temp_fahrenheit", temp_fahrenheit tilt_status);
                ("temp_celsius", temp_celsius tilt_status);
                ("gravity", gravity tilt_status);
                ("degrees_plato", degrees_plato tilt_status);
                ("alcohol_by_volume", alcohol_by_volume tilt_status);
                ("apparent_attenuation", apparent_attenuation tilt_status)] |}.

(** [for attempt in range(1, max_retries + 1)], from [attempt] on, with
    [remaining] passes to go.  The result is the batch, the server and
    what was printed and called. *)
Fixpoint write_attempts (remaining : nat) (attempt max_retries
    backoff_seconds : Z) (batch : list (Point Value)) (srv : Server)
  : list (Point Value) * Server * list (influx_event Value) :=
  match remaining with
  | O => (batch, srv, [])
  | S remaining' =>
      let '(srv1, r) := write (influxdb2_bucket config) batch srv in
      match r with
      | Ok _ =>
          ([], srv1, [Write (influxdb2_bucket config) batch;
                      SucceededLine attempt])
      | Raise e =>
          if attempt <? max_retries then
            let sleep_time := backoff_seconds * 2 ^ (attempt - 1) in
            let '(srv2, interrupted) := sleep sleep_time srv1 in
            if interrupted then
              (batch, srv2,
               [Write (influxdb2_bucket config) batch; FailedLine attempt e;
                RetryingLine sleep_time; Sleep sleep_time; InterruptedLine])
            else
              let '(batch', srv3, ev) :=
                write_attempts remaining' (attempt + 1) max_retries
                  backoff_seconds batch srv2 in
              (batch', srv3,
               [Write (influxdb2_bucket config) batch; FailedLine attempt e;
                RetryingLine sleep_time; Sleep sleep_time] ++ ev)
          else
            let '(batch', srv3, ev) :=
              write_attempts remaining' (attempt + 1) max_retries
                backoff_seconds batch srv1 in
            (batch', srv3,
             [Write (influxdb2_bucket config) batch; FailedLine attempt e;
              AllFailedLine] ++ ev)
      end
  end.

(** [update(tilt_status)] on the provider's [batch]. *)
Definition update (tilt_status : TiltStatus)
    (batch : list (Point Value)) (srv : Server)
  : list (Point Value) * Server * list (influx_event Value) :=
  let batch := batch ++ [get_point tilt_status] in
  if Z.of_nat (length batch) <? influxdb_batch_size config then
    (batch, srv, [SkippingLine])
  else
    let max_retries := default 3 (influxdb2_retries config) in
    let backoff_seconds :=
      default 2 (influxdb2_retry_backoff_seconds config) in
    let '(batch', srv', ev) :=
      write_attempts (Z.to_nat max_retries) 1 max_retries backoff_seconds
        batch srv in
    (batch', srv', SendingLine :: ev).

(** One [update] after the other, as the dispatch loop calls them. *)
Fixpoint updates (readings : list TiltStatus)
    (batch : list (Point Value)) (srv : Server)
  : list (Point Value) * Server * list (influx_event Value) :=
  match readings with
  | [] => (batch, srv, [])
  | tilt_status :: rest =>
      let '(batch1, srv1, ev1) := update tilt_status batch srv in
      let '(batch2, srv2, ev2) := updates rest batch1 srv1 in
      (batch2, srv2, ev1 ++ ev2)
  end.

End Provider.

(** The records of the writes in a trace. *)
Definition writes {Value} (ev : list (influx_event Value))
  : list (list (Point Value)) :=
  omap (fun e => match e with Write _ record => Some record | _ => None end)
       ev.

(** The points that reached the server: the records of the writes that a
    success line follows. *)
Fixpoint delivered {Value} (ev : list (influx_event Value))
  : list (Point Value) :=
  match ev with
  | Write _ record :: ((SucceededLine _ :: _) as rest) =>
      record ++ delivered rest
  | _ :: rest => delivered rest
  | [] => []
  end.


(** What the server and the clock themselves saw of the provider: a call
    of [write_api.write] with its record and whether the server accepted
    it, a call of [time.sleep] with its duration and whether the keyboard
    interrupted it. *)
Inductive call (Value : Type) : Type :=
| WriteCall (record : list (Point Value)) (accepted : bool)
| SleepCall (sleep_time : Z) (interrupted : bool).
Arguments WriteCall {Value} record accepted.
Arguments SleepCall {Value} sleep_time interrupted.







End InfluxDb2.


(** ** More concrete collaborators, for the examples *)

Module DemoStartup.

(** An enabled provider whose [start()] returns a message. *)
Definition connected : CloudProvider (H:=demo) :=
  @Build_CloudProvider demo (Demo.steady 1 0)
    (fun _ : Z => true) (fun w : Z => (w, Ok (Some "connected"%string))).

(** A provider that is not enabled, as [CloudProviderBase] is. *)
Definition switched_off : CloudProvider (H:=demo) :=
  @Build_CloudProvider demo (Demo.limited 1 0)
    (fun _ : Z => false) (fun w : Z => (w, Ok None)).

(** An enabled provider whose [start()] raises. *)
Definition refusing : CloudProvider (H:=demo) :=
  @Build_CloudProvider demo (Demo.broken 1 0)
    (fun _ : Z => true)
    (fun w : Z => (w, Raise (Exception "no route to host"))).

(** A webhook provider: enabled, starts without a message. *)
Definition webhook (url : string) : CloudProvider (H:=demo) :=
  @Build_CloudProvider demo
    (@Build_Provider demo url (fun (_ : Demo.reading) (w : Z) => (w, Ok ())))
    (fun _ : Z => true) (fun w : Z => (w, Ok None)).

(** What [enabled()] answers at time 0. *)
Definition is_enabled (provider : CloudProvider (H:=demo)) : bool :=
  enabled provider (0 : Z).

(** A scanner that starts at once, is never cancelled, and whose stop takes
    no time. *)
Definition scanner_start (w : Z) : Z * result unit := (w, Ok ()).
Definition scanner_stop (w : Z) : Z := w.
Definition never_cancelled (_ : Z) : bool := false.

End DemoStartup.

Module DemoInflux.

(** Batches of two points, the default retries and backoff. *)
Definition config : InfluxDb2.Config :=
  {| InfluxDb2.influxdb2_url := Some "http://localhost:8086"%string;
     InfluxDb2.influxdb2_bucket := "tilt";
     InfluxDb2.influxdb_batch_size := 2;
     InfluxDb2.influxdb2_retries := None;
     InfluxDb2.influxdb2_retry_backoff_seconds := None |}.

(** The same with no attempt allowed. *)
Definition no_retries : InfluxDb2.Config :=
  {| InfluxDb2.influxdb2_url := Some "http://localhost:8086"%string;
     InfluxDb2.influxdb2_bucket := "tilt";
     InfluxDb2.influxdb_batch_size := 2;
     InfluxDb2.influxdb2_retries := Some 0;
     InfluxDb2.influxdb2_retry_backoff_seconds := None |}.

(** The server counts the writes it has seen; [reliable] accepts every
    write, [down] refuses every write. *)
Definition reliable (_ : string) (_ : list (InfluxDb2.Point float))
    (srv : nat) : nat * result unit := (S srv, Ok ()).
Definition down (_ : string) (_ : list (InfluxDb2.Point float))
    (srv : nat) : nat * result unit :=
  (S srv, Raise (Exception "connection refused")).

(** A sleep that nobody interrupts. *)
Definition sleep (_ : Z) (srv : nat) : nat * bool := (srv, false).

(** The attributes of the example Readings; the derived ones are not part
    of the example and read as the gravity. *)
Definition name (tilt_status : Demo.reading) : string :=
  Demo.color tilt_status.
Definition temp (tilt_status : Demo.reading) : float :=
  float_of_int (Demo.temp_fahrenheit tilt_status).

Definition update (write : string -> list (InfluxDb2.Point float) -> nat
                           -> nat * result unit)
    (cfg : InfluxDb2.Config) :=
  InfluxDb2.update (H:=demo) Demo.color name temp temp Demo.gravity
    Demo.gravity Demo.gravity Demo.gravity write sleep cfg.

Definition updates (write : string -> list (InfluxDb2.Point float) -> nat
                            -> nat * result unit)
    (cfg : InfluxDb2.Config) :=
  InfluxDb2.updates (H:=demo) Demo.color name temp temp Demo.gravity
    Demo.gravity Demo.gravity Demo.gravity write sleep cfg.






End DemoInflux.

(** * Properties *)

(** ** The decoder *)

Section Decoder.

Import Struct.

Lemma length_slice {A} (s : list A) (lo hi : nat) :
  (hi <= length s)%nat -> length (slice s lo hi) = (hi - lo)%nat.
Proof.
  intros Hhi. unfold slice. rewrite length_take, length_drop. lia.
Qed.

Lemma slice_slice {A} (s : list A) (a b i j : nat) :
  (i <= j)%nat -> (a + j <= b)%nat ->
  slice (slice s a b) i j = slice s (a + i) (a + j).
Proof.
  intros Hi Hj. unfold slice.
  rewrite (take_drop_commute s (b - a) a), drop_drop.
  rewrite (take_drop_commute _ (j - i) (a + i)), take_take.
  rewrite (take_drop_commute s _ (a + i)).
  f_equal. f_equal; lia.
Qed.

Lemma slice_take {A} (s : list A) (n lo hi : nat) :
  (lo <= hi)%nat -> (hi <= n)%nat -> slice (take n s) lo hi = slice s lo hi.
Proof.
  intros Hlo Hn. unfold slice.
  rewrite !take_drop_commute, take_take. do 2 f_equal. lia.
Qed.

Lemma parse_short (d : list byte) :
  (length d < 23)%nat -> parse d = Ok None.
Proof.
  intros Hlen. unfold parse. by rewrite bool_decide_true.
Qed.

Lemma parse_long (d : list byte) :
  (23 <= length d)%nat ->
  exists b0 b1, d !! 0%nat = Some b0 /\ d !! 1%nat = Some b1 /\
    parse d =
      if bool_decide (byte_val b0 <> 0x02) then Ok None
      else if bool_decide (byte_val b1 <> 0x15) then Ok None
      else Ok (Some (decoded d)).
Proof.
  intros Hlen.
  destruct d as [|b0 [|b1 d']]; simpl in Hlen; try lia.
  exists b0, b1. split; [done|]. split; [done|].
  unfold parse. rewrite bool_decide_false by (simpl; lia).
  unfold getitem. cbn [lookup list_lookup mbind result_bind].
  destruct (bool_decide (byte_val b0 <> 2)); [done|].
  destruct (bool_decide (byte_val b1 <> 21)); [done|].
  set (d := b0 :: b1 :: d') in *.
  assert (Hd : (23 <= length d)%nat) by (subst d; simpl; lia).
  unfold unpack_16sHHb, calcsize.
  rewrite bool_decide_true by (rewrite length_slice; lia).
  cbn [mbind result_bind].
  rewrite !slice_slice by lia. cbn [Nat.add].
  unfold Uuid.str_of_bytes.
  rewrite bool_decide_true by (rewrite length_slice; lia).
  reflexivity.
Qed.

Lemma byte_val_inj (a b : byte) : byte_val a = byte_val b -> a = b.
Proof.
  unfold byte_val. intros Hab. apply N2Z.inj in Hab.
  assert (Ha := Byte.of_to_N a). rewrite Hab, Byte.of_to_N in Ha.
  congruence.
Qed.

Lemma byte_val_of_Z (n : Z) : byte_val (Layout.byte_of_Z n) = n mod 256.
Proof.
  unfold byte_val, Layout.byte_of_Z.
  assert (Hr : 0 <= n mod 256 < 256) by (apply Z.mod_pos_bound; lia).
  destruct (Byte.of_N (Z.to_N (n mod 256))) as [b|] eqn:Hb.
  - apply Byte.to_of_N in Hb. simpl. rewrite Hb. lia.
  - apply Byte.of_N_None_iff in Hb. lia.
Qed.

Lemma be_uint_u16 (n : Z) : 0 <= n < 65536 -> be_uint (Layout.u16_be n) = n.
Proof.
  intros Hn. unfold be_uint, Layout.u16_be. simpl.
  rewrite !byte_val_of_Z.
  assert (0 <= n / 256 < 256)
    by (split; [apply Z.div_pos; lia | apply Z.div_lt_upper_bound; lia]).
  rewrite (Z.mod_small (n / 256)) by lia.
  pose proof (Z.div_mod n 256). lia.
Qed.

Lemma be_int_i8 (n : Z) : -128 <= n < 128 -> be_int (Layout.i8 n) = n.
Proof.
  intros Hn. unfold be_int, be_uint, Layout.i8. simpl foldl. simpl length.
  rewrite byte_val_of_Z. change (2 ^ (8 * Z.of_nat 1 - 1)) with 128.
  destruct (Z.ltb_spec (0 * 256 + n mod 256) 128) as [Hlt|Hge].
  - destruct (Z.lt_ge_cases n 0) as [Hneg|Hpos].
    + rewrite <- (Z.mod_add n 1 256) in Hlt by lia.
      rewrite Z.mod_small in Hlt by lia. lia.
    + rewrite Z.mod_small by lia. lia.
  - destruct (Z.lt_ge_cases n 0) as [Hneg|Hpos].
    + rewrite <- (Z.mod_add n 1 256) by lia.
      rewrite Z.mod_small by lia. lia.
    + rewrite Z.mod_small in Hge by lia. lia.
Qed.

(** The two digits of a byte read back as the byte. *)
Lemma unhex_hex_of_byte (b : byte) (rest : string) :
  Uuid.unhex (Uuid.hex_of_byte b +:+ rest) = (b ::.) <$> Uuid.unhex rest.
Proof. destruct b; reflexivity. Qed.

Lemma unhex_hex (bs : list byte) : Uuid.unhex (Uuid.hex bs) = Some bs.
Proof.
  induction bs as [|b bs IH]; [done|].
  change (Uuid.hex (b :: bs)) with (Uuid.hex_of_byte b +:+ Uuid.hex bs).
  by rewrite unhex_hex_of_byte, IH.
Qed.

(** Regrouping the digits 8-4-4-4-12 and removing the hyphens again
    gives back the 32 digits. *)
Lemma bytes_of_str_format (bs : list byte) :
  length bs = 16%nat ->
  Uuid.bytes_of_str (Uuid.format (Uuid.hex bs)) = Some bs.
Proof.
  intros Hlen. rewrite <- (unhex_hex bs).
  do 16 (destruct bs as [|? bs]; [discriminate Hlen|]).
  destruct bs; [|discriminate Hlen].
  reflexivity.
Qed.

(** C4: a payload shorter than 23 bytes, or one whose first two bytes are
    not the marker bytes 0x02 0x15, is answered with "not recognized"
    ([None]), and the decoder does not raise on it. *)
Theorem parse_not_recognized (d : list byte) :
  (length d < 23)%nat \/ take 2 d <> [x02; x15] ->
  parse d = Ok None.
Proof.
  intros Hbad.
  destruct (decide (length d < 23)%nat) as [Hshort|Hlong];
    [by apply parse_short|].
  destruct Hbad as [Hshort|Hmarker]; [lia|].
  destruct (parse_long d) as (b0 & b1 & H0 & H1 & ->); [lia|].
  destruct d as [|c0 [|c1 d']]; simpl in Hlong; try lia.
  simpl in H0, H1, Hmarker. simplify_eq.
  case_bool_decide as Hb0; [done|].
  case_bool_decide as Hb1; [done|].
  exfalso. apply Hmarker.
  f_equal; [by apply byte_val_inj|].
  f_equal. by apply byte_val_inj.
Qed.

(** The decoder never raises, whatever the payload. *)
Lemma parse_total (d : list byte) : exists r, parse d = Ok r.
Proof.
  destruct (decide (length d < 23)%nat) as [Hshort|Hlong].
  - exists None. by apply parse_short.
  - destruct (parse_long d) as (b0 & b1 & _ & _ & ->); [lia|].
    repeat case_bool_decide; eauto.
Qed.

(** C6: a payload built by the documented layout from a 16-byte
    identifier, 16-bit major and minor and a signed 8-bit tx power has 23
    bytes and decodes to exactly these major, minor and tx power, and to
    the UUID string that reads back as exactly the identifier. *)
Theorem parse_payload_roundtrip (identifier : list byte)
    (major minor tx_power : Z) :
  length identifier = 16%nat ->
  0 <= major < 65536 ->
  0 <= minor < 65536 ->
  -128 <= tx_power < 128 ->
  length (Layout.payload identifier major minor tx_power) = 23%nat /\
  exists u,
    parse (Layout.payload identifier major minor tx_power)
      = Ok (Some (Packet u major minor tx_power)) /\
    Uuid.bytes_of_str u = Some identifier.
Proof.
  intros Hlen Hmajor Hminor Htx.
  assert (Hsize : length (Layout.payload identifier major minor tx_power)
                  = 23%nat).
  { unfold Layout.payload. rewrite !length_app, Hlen. reflexivity. }
  split; [exact Hsize|].
  exists (Uuid.format (Uuid.hex identifier)).
  split; [|by apply bytes_of_str_format].
  destruct (parse_long (Layout.payload identifier major minor tx_power))
    as (b0 & b1 & H0 & H1 & ->); [lia|].
  unfold Layout.payload in H0, H1. simpl in H0, H1. simplify_eq.
  rewrite !bool_decide_false by (intros Hne; by apply Hne).
  do 3 f_equal. unfold decoded.
  assert (Hid : slice (Layout.payload identifier major minor tx_power) 2 18
                = identifier).
  { unfold slice, Layout.payload. simpl drop.
    by apply take_app_length'. }
  assert (Hrest : forall lo hi : nat, (18 <= lo)%nat ->
            slice (Layout.payload identifier major minor tx_power) lo hi
            = slice (Layout.u16_be major ++ Layout.u16_be minor
                     ++ Layout.i8 tx_power) (lo - 18) (hi - 18)).
  { intros lo hi Hlo. unfold slice, Layout.payload.
    replace lo with (2 + (length identifier + (lo - 18)))%nat at 2 by lia.
    rewrite <- !drop_drop.
    rewrite (drop_app_length' [x02; x15]) by reflexivity.
    rewrite drop_app_length. f_equal. lia. }
  rewrite Hid, !Hrest by lia.
  f_equal.
  - by apply be_uint_u16.
  - by apply be_uint_u16.
  - by apply be_int_i8.
Qed.

(** C10: two payloads of at least 23 bytes that agree on their first 23
    bytes decode to the same result. *)
Theorem parse_ignores_tail (d1 d2 : list byte) :
  (23 <= length d1)%nat ->
  (23 <= length d2)%nat ->
  take 23 d1 = take 23 d2 ->
  parse d1 = parse d2.
Proof.
  intros Hl1 Hl2 Heq.
  destruct (parse_long d1) as (a0 & a1 & Ha0 & Ha1 & ->); [done|].
  destruct (parse_long d2) as (b0 & b1 & Hb0 & Hb1 & ->); [done|].
  assert (Hlook : forall i : nat, (i < 23)%nat -> d1 !! i = d2 !! i).
  { intros i Hi.
    rewrite <- (lookup_take_lt d1 23 i), <- (lookup_take_lt d2 23 i) by done.
    by rewrite Heq. }
  rewrite Hlook, Hb0 in Ha0 by lia. rewrite Hlook, Hb1 in Ha1 by lia.
  simplify_eq.
  assert (Hdec : decoded d1 = decoded d2).
  { unfold decoded.
    rewrite <- (slice_take d1 23 2 18), <- (slice_take d1 23 18 20),
      <- (slice_take d1 23 20 22), <- (slice_take d1 23 22 23) by lia.
    rewrite Heq.
    by rewrite !slice_take by lia. }
  by rewrite Hdec.
Qed.

Lemma parse_not_recognized_witness :
  ((length [x02; x16; x00] < 23)%nat \/ take 2 [x02; x16; x00] <> [x02; x15])
  /\ parse [x02; x16; x00] = Ok None.
Proof.
  assert (Hshort : (length [x02; x16; x00] < 23)%nat) by (simpl; lia).
  split; [by left|].
  apply (parse_not_recognized [x02; x16; x00]). by left.
Defined.

Lemma parse_payload_roundtrip_witness :
  length (Layout.payload Demo.green_id 70 1035 (-72)) = 23%nat /\
  exists u,
    parse (Layout.payload Demo.green_id 70 1035 (-72))
      = Ok (Some (Packet u 70 1035 (-72))) /\
    Uuid.bytes_of_str u = Some Demo.green_id.
Proof.
  apply (parse_payload_roundtrip Demo.green_id 70 1035 (-72));
    [reflexivity | lia | lia | lia].
Defined.

Lemma parse_ignores_tail_witness :
  parse (Demo.green_payload ++ [x00; x01]) = parse (Demo.green_payload ++ [xff]).
Proof.
  apply (parse_ignores_tail (Demo.green_payload ++ [x00; x01])
           (Demo.green_payload ++ [xff]));
    [simpl; lia | simpl; lia | reflexivity].
Defined.

End Decoder.

(** ** The producer *)

Section Producer.

Context `{Collaborators}.

(** An empty queue is not full, whatever its [maxsize]. *)
Lemma full_empty {A} (q : Queue.t A) :
  Queue.items q = [] -> Queue.full q = false.
Proof.
  intros Hitems. unfold Queue.full, Queue.qsize. rewrite Hitems.
  apply andb_false_iff.
  destruct (decide (0 < Queue.maxsize q)).
  - right. apply bool_decide_eq_false. simpl length. lia.
  - left. by apply bool_decide_eq_false.
Qed.

Lemma put_nowait_not_full {A} (q : Queue.t A) (item : A) :
  Queue.full q = false ->
  Queue.put_nowait q item
    = Ok (Queue.Make (Queue.maxsize q) (Queue.items q ++ [item])).
Proof.
  unfold Queue.full, Queue.put_nowait. by intros ->.
Qed.

(** The outcomes of one producer call: the queue is left as it was, or a
    Reading of a known colour with both flags true went to its end. *)
Lemma beacon_callback_cases (q : Queue.t TiltStatus) (p : packet) :
  exists q' ev,
    _beacon_callback q p = Ok (q', ev) /\
    calls ev = [] /\ warnings ev = [] /\
    (q' = q \/
     exists color,
       Queue.full q = false /\
       uuid_to_colors !! uuid p = Some color /\
       temp_valid (reading_of color p) = true /\
       gravity_valid (reading_of color p) = true /\
       ev = [Built (reading_of color p)] /\
       q' = Queue.Make (Queue.maxsize q)
                       (Queue.items q ++ [reading_of color p])).
Proof.
  unfold _beacon_callback.
  destruct (Queue.full q) eqn:Hfull; [by eauto 10|].
  destruct (uuid_to_colors !! uuid p) as [color|] eqn:Hcolor; [|by eauto 10].
  case_bool_decide; [|by eauto 10].
  fold (reading_of color p).
  destruct (temp_valid (reading_of color p)) eqn:Htemp; simpl;
    [|by eauto 10].
  destruct (gravity_valid (reading_of color p)) eqn:Hgrav; simpl;
    [|by eauto 10].
  rewrite put_nowait_not_full by done. simpl.
  do 2 eexists. split; [done|]. split; [done|]. split; [done|].
  right. exists color. repeat split; reflexivity || assumption.
Qed.

Lemma bleak_callback_cases (q : Queue.t TiltStatus)
    (manufacturer_data : gmap Z (list byte)) :
  bleak_callback q manufacturer_data = Ok (q, []) \/
  exists raw_data p,
    manufacturer_data !! APPLE_MANUFACTURER_ID = Some raw_data /\
    parse raw_data = Ok (Some p) /\
    bleak_callback q manufacturer_data = _beacon_callback q p.
Proof.
  unfold bleak_callback.
  destruct (manufacturer_data !! APPLE_MANUFACTURER_ID) as [raw_data|];
    [|by left].
  destruct (parse_total raw_data) as [[p|] Hparse]; rewrite Hparse; simpl.
  - right. eauto.
  - by left.
Qed.

(** C9: on a full queue the producer returns at once: the queue is left as
    it is and nothing is recorded -- no Reading is built, no line about an
    invalid temperature or gravity is printed -- whatever the packet, on the
    simulator's path and on the scanner's. *)
Theorem full_queue_returns_before_lookup (q : Queue.t TiltStatus) :
  Queue.full q = true ->
  (forall p : packet, _beacon_callback q p = Ok (q, [])) /\
  (forall manufacturer_data : gmap Z (list byte),
     bleak_callback q manufacturer_data = Ok (q, [])).
Proof.
  intros Hfull.
  assert (Hcb : forall p : packet, _beacon_callback q p = Ok (q, [])).
  { intros p. unfold _beacon_callback. by rewrite Hfull. }
  split; [exact Hcb|].
  intros manufacturer_data.
  destruct (bleak_callback_cases q manufacturer_data)
    as [Hnone|(raw_data & p & _ & _ & ->)]; [done|apply Hcb].
Qed.

End Producer.

(** ** The consumer *)

Section Consumer.

Context `{Collaborators}.

Lemma calls_app (ev1 ev2 : list event) :
  calls (ev1 ++ ev2) = calls ev1 ++ calls ev2.
Proof. apply omap_app. Qed.

Lemma warnings_app (ev1 ev2 : list event) :
  warnings (ev1 ++ ev2) = warnings ev1 ++ warnings ev2.
Proof. apply omap_app. Qed.

Lemma update_provider_ok (cl : bool) (ts : TiltStatus) (p : Provider)
    (w w' : World) (u : unit) :
  update p ts w = (w', Ok u) ->
  update_provider cl ts p w
    = (w', Update p ts :: if cl then [Updated p ts] else []).
Proof. unfold update_provider. by intros ->. Qed.

Lemma update_provider_raise (cl : bool) (ts : TiltStatus) (p : Provider)
    (w w' : World) (e : exn) :
  update p ts w = (w', Raise e) ->
  update_provider cl ts p w = (w', [Update p ts; failure_line p ts e]).
Proof. unfold update_provider. intros ->. by destruct e. Qed.

(** Whatever [update] does, the loop body returns, calls it once and
    leaves the world that [update] left. *)
Lemma update_provider_calls (cl : bool) (ts : TiltStatus) (p : Provider)
    (w : World) :
  (update_provider cl ts p w).1 = (update p ts w).1 /\
  calls (update_provider cl ts p w).2 = [(p, ts)] /\
  warnings (update_provider cl ts p w).2 = [].
Proof.
  destruct (update p ts w) as [w' [u|e]] eqn:Hup.
  - rewrite (update_provider_ok _ _ _ _ _ _ Hup). by destruct cl.
  - rewrite (update_provider_raise _ _ _ _ _ _ Hup). by destruct e.
Qed.

Lemma update_providers_app (cl : bool) (ts : TiltStatus)
    (ps1 ps2 : list Provider) (w : World) :
  update_providers cl ts (ps1 ++ ps2) w =
    ((update_providers cl ts ps2 (update_providers cl ts ps1 w).1).1,
     (update_providers cl ts ps1 w).2 ++
     (update_providers cl ts ps2 (update_providers cl ts ps1 w).1).2).
Proof.
  revert w. induction ps1 as [|p ps1 IH]; intros w; simpl.
  - by destruct (update_providers cl ts ps2 w).
  - destruct (update_provider cl ts p w) as [w1 ev1].
    rewrite IH.
    destruct (update_providers cl ts ps1 w1) as [w2 ev2]. simpl.
    by rewrite app_assoc.
Qed.

Lemma update_providers_calls (cl : bool) (ts : TiltStatus)
    (ps : list Provider) (w : World) :
  calls (update_providers cl ts ps w).2 = fan_out ps ts /\
  warnings (update_providers cl ts ps w).2 = [].
Proof.
  revert w. induction ps as [|p ps IH]; intros w; simpl; [done|].
  destruct (update_provider_calls cl ts p w) as (_ & Hc & Hw).
  destruct (update_provider cl ts p w) as [w1 ev1]. simpl in Hc, Hw.
  destruct (IH w1) as [Hc' Hw'].
  destruct (update_providers cl ts ps w1) as [w2 ev2]. simpl in *.
  by rewrite calls_app, warnings_app, Hc, Hw, Hc', Hw'.
Qed.

(** The world that the loop over the providers leaves is the world after
    their updates. *)
Lemma update_providers_world (cl : bool) (ts : TiltStatus)
    (ps : list Provider) (w : World) :
  (update_providers cl ts ps w).1 = updated_world ts ps w.
Proof.
  revert w. induction ps as [|p ps IH]; intros w; simpl; [done|].
  destruct (update_provider_calls cl ts p w) as (Hw & _).
  destruct (update_provider cl ts p w) as [w1 ev1]. simpl in Hw.
  specialize (IH w1).
  destruct (update_providers cl ts ps w1) as [w2 ev2]. simpl in *.
  by rewrite <- Hw.
Qed.

(** A cycle that finds a Reading. *)
Lemma handle_reading (ps : list Provider) (cl : bool)
    (q : Queue.t TiltStatus) (w : World) (ts : TiltStatus)
    (rest : list TiltStatus) :
  Queue.items q = ts :: rest ->
  _handle_pitch_queue ps cl q w =
    Ok (Queue.Make (Queue.maxsize q) rest,
        (update_providers cl ts ps w).1,
        (if Queue.full q then [QueueIsFull (Queue.qsize q)] else []) ++
        (update_providers cl ts ps w).2 ++
        (if cl then [Json ts] else [])).
Proof.
  intros Hitems. unfold _handle_pitch_queue.
  assert (Hne : Queue.empty q = false).
  { unfold Queue.empty, Queue.qsize. rewrite Hitems.
    apply bool_decide_eq_false. simpl length. lia. }
  rewrite Hne, andb_false_r.
  unfold Queue.get. rewrite Hitems.
  by destruct (update_providers cl ts ps w).
Qed.

(** A cycle that finds the queue empty: it sleeps or waits, calls no sink
    and prints nothing. *)
Lemma handle_nothing (ps : list Provider) (cl : bool)
    (q : Queue.t TiltStatus) (w : World) :
  Queue.items q = [] ->
  exists w' ev,
    _handle_pitch_queue ps cl q w = Ok (q, w', ev) /\
    calls ev = [] /\ warnings ev = [].
Proof.
  intros Hitems. unfold _handle_pitch_queue.
  destruct (bool_decide (0 < queue_empty_sleep_seconds config)
            && Queue.empty q); [by eauto|].
  unfold Queue.get. rewrite (full_empty q Hitems), Hitems. by eauto.
Qed.

(** [_handle_pitch_queue] lets no exception out. *)
Lemma handle_total (ps : list Provider) (cl : bool)
    (q : Queue.t TiltStatus) (w : World) :
  exists q' w' ev, _handle_pitch_queue ps cl q w = Ok (q', w', ev).
Proof.
  destruct (Queue.items q) as [|ts rest] eqn:Hitems.
  - destruct (handle_nothing ps cl q w Hitems) as (w' & ev & Hh & _). eauto.
  - rewrite (handle_reading ps cl q w ts rest Hitems). eauto.
Qed.

(** The events of a cycle that finds a Reading, and its calls. *)
Lemma cycle_with_reading (cl : bool)
    (ps : list Provider) (q : Queue.t TiltStatus) (w : World)
    (ts : TiltStatus) (rest : list TiltStatus) :
  Queue.items q = ts :: rest ->
  exists w' ev,
    _handle_pitch_queue ps cl q w
      = Ok (Queue.Make (Queue.maxsize q) rest, w', ev) /\
    calls ev = fan_out ps ts /\
    ev = (if Queue.full q then [QueueIsFull (Queue.qsize q)] else [])
         ++ (update_providers cl ts ps w).2
         ++ (if cl then [Json ts] else []).
Proof.
  intros Hitems. rewrite (handle_reading _ _ _ _ _ _ Hitems).
  do 2 eexists. split; [reflexivity|]. split; [|reflexivity].
  destruct (update_providers_calls cl ts ps w) as [Hcalls _].
  rewrite !calls_app, Hcalls.
  destruct (Queue.full q), cl; simpl; by rewrite ?app_nil_r.
Qed.

End Consumer.

(** ** Interleaved runs of producer and consumer *)

Section Runs.

Context `{Collaborators}.
Variable enabled_providers : list Provider.
Variable console_log : bool.
Variable timeout_seconds : Z.
Variable start_time : Z.

(** The [except Exception] of [_run_queue_consumer] is never entered: a
    pass is a cycle followed by the timeout test. *)
Lemma consumer_pass_cycle (q : Queue.t TiltStatus) (w : World) :
  exists q' w' ev,
    _handle_pitch_queue enabled_providers console_log q w = Ok (q', w', ev) /\
    consumer_pass enabled_providers console_log timeout_seconds start_time q w
      = (q', w', ev,
         bool_decide (0 < timeout_seconds)
         && bool_decide (timeout_seconds < time_time w' - start_time)).
Proof.
  destruct (handle_total enabled_providers console_log q w)
    as (q' & w' & ev & Hh).
  exists q', w', ev. split; [exact Hh|].
  unfold consumer_pass. by rewrite Hh.
Qed.

(** What one step does to the queue and to the trace: [enq] is what the
    producer appended (at most one Reading, none on a full queue), [rem]
    what the consumer removed, and every removed Reading was handed to
    every provider, in order. *)
Lemma step_effect (a : action) (s : System) :
  exists s' enq rem,
    step enabled_providers console_log timeout_seconds start_time a s = Ok s' /\
    Queue.maxsize (pitch_q s') = Queue.maxsize (pitch_q s) /\
    Queue.items (pitch_q s) ++ enq = rem ++ Queue.items (pitch_q s') /\
    (length enq <= 1)%nat /\
    (Queue.full (pitch_q s) = true -> enq = []) /\
    calls (trace s') =
      calls (trace s) ++ flat_map (fan_out enabled_providers) rem /\
    (returned s' = true -> returned s = true \/ 0 < timeout_seconds).
Proof.
  assert (Hproducer : forall q' ev,
    calls ev = [] ->
    (q' = pitch_q s \/
     exists r, Queue.full (pitch_q s) = false /\
       q' = Queue.Make (Queue.maxsize (pitch_q s))
                       (Queue.items (pitch_q s) ++ [r])) ->
    let s' := {| pitch_q := q'; world := world s; returned := returned s;
                 trace := trace s ++ ev |} in
    exists enq rem,
      Queue.maxsize (pitch_q s') = Queue.maxsize (pitch_q s) /\
      Queue.items (pitch_q s) ++ enq = rem ++ Queue.items (pitch_q s') /\
      (length enq <= 1)%nat /\
      (Queue.full (pitch_q s) = true -> enq = []) /\
      calls (trace s') =
        calls (trace s) ++ flat_map (fan_out enabled_providers) rem /\
      (returned s' = true -> returned s = true \/ 0 < timeout_seconds)).
  { intros q' ev Hcalls Hq. simpl.
    rewrite calls_app, Hcalls.
    destruct Hq as [->|(r & Hnf & ->)].
    - exists [], []. simpl. rewrite !app_nil_r.
      repeat split; auto.
    - exists [r], []. simpl. rewrite !app_nil_r.
      repeat split; auto. intros Hf. congruence. }
  destruct a as [manufacturer_data|p|].
  - (* the scanner delivers an advertisement *)
    simpl.
    destruct (bleak_callback_cases (pitch_q s) manufacturer_data)
      as [->|(raw_data & p & _ & _ & ->)].
    + simpl.
      destruct (Hproducer (pitch_q s) [] eq_refl (or_introl eq_refl))
        as (enq & rem & Hp).
      eexists. exists enq, rem. by split.
    + destruct (beacon_callback_cases (pitch_q s) p)
        as (q' & ev & -> & Hcalls & _ & Hq). simpl.
      destruct (Hproducer q' ev Hcalls) as (enq & rem & Hp).
      { destruct Hq as [->|(color & Hnf & _ & _ & _ & _ & ->)];
          [by left|right; eauto]. }
      eexists. exists enq, rem. by split.
  - (* the simulator calls the producer *)
    simpl.
    destruct (beacon_callback_cases (pitch_q s) p)
      as (q' & ev & -> & Hcalls & _ & Hq). simpl.
    destruct (Hproducer q' ev Hcalls) as (enq & rem & Hp).
    { destruct Hq as [->|(color & Hnf & _ & _ & _ & _ & ->)];
        [by left|right; eauto]. }
    eexists. exists enq, rem. by split.
  - (* one pass of the consumer *)
    simpl. destruct (returned s) eqn:Hret.
    + exists s, [], []. simpl. rewrite !app_nil_r. repeat split; auto.
    + destruct (consumer_pass_cycle (pitch_q s) (world s))
        as (q' & w' & ev & Hh & ->).
      destruct (Queue.items (pitch_q s)) as [|ts rest] eqn:Hitems.
      * destruct (handle_nothing enabled_providers console_log _ (world s)
                    Hitems) as (w'' & ev'' & Hh' & Hcalls & _).
        rewrite Hh in Hh'. injection Hh' as -> -> ->.
        eexists _, [], []. split; [reflexivity|]. simpl.
        rewrite calls_app, Hcalls, Hitems, !app_nil_r.
        repeat split; auto.
        intros [Ht _]%andb_true_iff. right. by apply bool_decide_eq_true in Ht.
      * rewrite (handle_reading _ _ _ _ _ _ Hitems) in Hh.
        injection Hh as <- <- <-.
        eexists _, [], [ts]. split; [reflexivity|]. simpl.
        destruct (update_providers_calls console_log ts enabled_providers
                    (world s)) as [Hcalls _].
        rewrite !calls_app, Hcalls, !app_nil_r.
        replace (calls (if Queue.full (pitch_q s)
                        then [QueueIsFull (Queue.qsize (pitch_q s))] else []))
          with (@nil (Provider * TiltStatus)) by (by destruct (Queue.full _)).
        replace (calls (if console_log then [Json ts] else []))
          with (@nil (Provider * TiltStatus)) by (by destruct console_log).
        simpl. rewrite !app_nil_r.
        repeat split; auto.
        intros [Ht _]%andb_true_iff. right. by apply bool_decide_eq_true in Ht.
Qed.

(** The same for a whole run, with the bound on the queue. *)
Lemma run_effect (schedule : list action) (s : System) :
  exists s' enq rem,
    run enabled_providers console_log timeout_seconds start_time schedule s
      = Ok s' /\
    Queue.maxsize (pitch_q s') = Queue.maxsize (pitch_q s) /\
    Queue.items (pitch_q s) ++ enq = rem ++ Queue.items (pitch_q s') /\
    calls (trace s') =
      calls (trace s) ++ flat_map (fan_out enabled_providers) rem /\
    (returned s' = true -> returned s = true \/ 0 < timeout_seconds) /\
    (0 < Queue.maxsize (pitch_q s) ->
     Queue.qsize (pitch_q s) <= Queue.maxsize (pitch_q s) ->
     Queue.qsize (pitch_q s') <= Queue.maxsize (pitch_q s')).
Proof.
  revert s. induction schedule as [|a schedule IH]; intros s.
  - exists s, [], []. simpl. rewrite !app_nil_r. repeat split; auto.
  - destruct (step_effect a s)
      as (s1 & enq1 & rem1 & Hstep & Hmax1 & Hitems1 & Hlen1 & Hfull1
          & Hcalls1 & Hret1).
    destruct (IH s1)
      as (s' & enq2 & rem2 & Hrun & Hmax2 & Hitems2 & Hcalls2 & Hret2 & Hcap2).
    exists s', (enq1 ++ enq2), (rem1 ++ rem2).
    simpl. rewrite Hstep. simpl.
    split; [exact Hrun|]. split; [congruence|].
    split; [by rewrite app_assoc, Hitems1, <- !app_assoc, Hitems2|].
    split; [by rewrite Hcalls2, Hcalls1, flat_map_app, app_assoc|].
    split; [intros Hr; destruct (Hret2 Hr); auto|].
    intros Hpos Hle. apply Hcap2; [lia|].
    rewrite Hmax1.
    apply (f_equal length) in Hitems1. rewrite !length_app in Hitems1.
    unfold Queue.qsize in *.
    destruct (Queue.full (pitch_q s)) eqn:Hf.
    + rewrite (Hfull1 eq_refl) in Hitems1. simpl in Hitems1. lia.
    + unfold Queue.full in Hf. apply andb_false_iff in Hf.
      destruct Hf as [Hf|Hf]; apply bool_decide_eq_false in Hf;
        unfold Queue.qsize in Hf; lia.
Qed.

(** No step lets anything into the queue but Readings of a known colour
    with both flags true. *)
Lemma step_recognized_and_valid (a : action) (s s' : System) :
  step enabled_providers console_log timeout_seconds start_time a s = Ok s' ->
  Forall recognized_and_valid (Queue.items (pitch_q s)) ->
  Forall recognized_and_valid (Queue.items (pitch_q s')).
Proof.
  intros Hstep Hinv.
  assert (Hproducer : forall p q' ev,
            _beacon_callback (pitch_q s) p = Ok (q', ev) ->
            Forall recognized_and_valid (Queue.items q')).
  { intros p q' ev Hcb.
    destruct (beacon_callback_cases (pitch_q s) p)
      as (q'' & ev'' & Hcb' & _ & _ & Hq).
    rewrite Hcb in Hcb'. injection Hcb' as <- <-.
    destruct Hq as [->|(color & _ & Hcolor & Ht & Hg & _ & ->)]; [done|].
    simpl. apply Forall_app. split; [done|].
    apply Forall_singleton. exists p, color. by repeat split. }
  destruct a as [manufacturer_data|p|]; simpl in Hstep.
  - destruct (bleak_callback_cases (pitch_q s) manufacturer_data)
      as [Hb|(raw_data & p & _ & _ & Hb)]; rewrite Hb in Hstep.
    + by injection Hstep as <-.
    + destruct (_beacon_callback (pitch_q s) p) as [[q' ev]|e] eqn:Hcb;
        [|done].
      injection Hstep as <-. by eapply Hproducer.
  - destruct (_beacon_callback (pitch_q s) p) as [[q' ev]|e] eqn:Hcb;
      [|done].
    injection Hstep as <-. by eapply Hproducer.
  - destruct (returned s); [by injection Hstep as <-|].
    destruct (consumer_pass_cycle (pitch_q s) (world s))
      as (q' & w' & ev & Hh & Hpass).
    rewrite Hpass in Hstep. injection Hstep as <-. simpl.
    destruct (Queue.items (pitch_q s)) as [|ts rest] eqn:Hitems.
    + destruct (handle_nothing enabled_providers console_log _ (world s)
                  Hitems) as (w'' & ev'' & Hh' & _).
      rewrite Hh in Hh'. injection Hh' as -> _ _. by rewrite Hitems.
    + rewrite (handle_reading _ _ _ _ _ _ Hitems) in Hh.
      injection Hh as <- _ _. simpl. by apply Forall_cons in Hinv as [_ ?].
Qed.

Lemma run_recognized_and_valid (schedule : list action) (s : System) :
  Forall recognized_and_valid (Queue.items (pitch_q s)) ->
  exists s',
    run enabled_providers console_log timeout_seconds start_time schedule s
      = Ok s' /\
    Forall recognized_and_valid (Queue.items (pitch_q s')).
Proof.
  revert s. induction schedule as [|a schedule IH]; intros s Hinv.
  - by exists s.
  - destruct (step_effect a s) as (s1 & enq & rem & Hstep & _).
    destruct (IH s1) as (s' & Hrun & Hinv').
    { by eapply step_recognized_and_valid. }
    exists s'. simpl. rewrite Hstep. by split.
Qed.

(** The loop returns only when a time budget is set. *)
Lemma consumer_loop_returns (fuel : nat) (q : Queue.t TiltStatus) (w : World) :
  (consumer_loop enabled_providers console_log timeout_seconds start_time
     fuel q w).2 = true ->
  0 < timeout_seconds.
Proof.
  revert q w. induction fuel as [|fuel IH]; intros q w; [done|].
  simpl.
  destruct (consumer_pass_cycle q w) as (q1 & w1 & ev1 & _ & ->).
  destruct (bool_decide (0 < timeout_seconds)) eqn:Hbudget.
  - intros _. by apply bool_decide_eq_true in Hbudget.
  - simpl. specialize (IH q1 w1).
    by destruct (consumer_loop enabled_providers console_log timeout_seconds
                   start_time fuel q1 w1) as [[[q2 w2] ev2] ret'].
Qed.

(** As long as there are Readings, every pass of the loop removes the
    oldest one and hands it to every provider; the loop is left only by the
    timeout test. *)
Lemma consumer_loop_dispatches (fuel : nat) (q : Queue.t TiltStatus)
    (w : World) :
  (fuel <= length (Queue.items q))%nat ->
  let '(q', w', ev, ret) :=
    consumer_loop enabled_providers console_log timeout_seconds start_time
      fuel q w in
  exists k : nat,
    (k <= fuel)%nat /\
    q' = Queue.Make (Queue.maxsize q) (drop k (Queue.items q)) /\
    w' = foldl (fun w ts => updated_world ts enabled_providers w) w
               (take k (Queue.items q)) /\
    calls ev = flat_map (fan_out enabled_providers) (take k (Queue.items q)) /\
    (ret = false -> k = fuel) /\
    (ret = true ->
     0 < timeout_seconds /\ timeout_seconds < time_time w' - start_time).
Proof.
  revert q w. induction fuel as [|fuel IH]; intros q w Hlen.
  - exists 0%nat. destruct q as [maxsize items]. simpl.
    by repeat split.
  - destruct q as [maxsize [|ts rest]]; simpl in Hlen; [lia|].
    simpl consumer_loop. unfold consumer_pass.
    rewrite (handle_reading enabled_providers console_log
               (Queue.Make maxsize (ts :: rest)) w ts rest eq_refl).
    rewrite update_providers_world.
    set (w1 := updated_world ts enabled_providers w).
    assert (Hcalls1 :
      calls ((if Queue.full (Queue.Make maxsize (ts :: rest))
              then [QueueIsFull
                      (Queue.qsize (Queue.Make maxsize (ts :: rest)))]
              else [])
             ++ (update_providers console_log ts enabled_providers w).2
             ++ (if console_log then [Json ts] else []))
      = fan_out enabled_providers ts).
    { destruct (update_providers_calls console_log ts enabled_providers w)
        as [Hc _].
      rewrite !calls_app, Hc.
      destruct (Queue.full _), console_log; simpl; by rewrite ?app_nil_r. }
    destruct (bool_decide (0 < timeout_seconds)
              && bool_decide (timeout_seconds < time_time w1 - start_time))
      eqn:Htest.
    + exists 1%nat. simpl. rewrite ?drop_0, ?take_0, ?app_nil_r.
      split; [lia|]. split; [reflexivity|]. split; [reflexivity|].
      split; [exact Hcalls1|]. split; [done|].
      intros _. apply andb_true_iff in Htest as [Hb Ht].
      apply bool_decide_eq_true in Hb. apply bool_decide_eq_true in Ht.
      by split.
    + specialize (IH (Queue.Make maxsize rest) w1 ltac:(simpl; lia)).
      cbn [Queue.maxsize Queue.items] in *.
      destruct (consumer_loop enabled_providers console_log timeout_seconds
                  start_time fuel (Queue.Make maxsize rest) w1)
        as [[[q2 w2] ev2] ret2].
      destruct IH as (k & Hk & Hq & Hw & Hcalls & Hfalse & Htrue).
      exists (S k). simpl in *.
      split; [lia|]. split; [exact Hq|]. split; [exact Hw|].
      split; [by rewrite calls_app, Hcalls1, Hcalls|].
      split; [intros Hr; by rewrite (Hfalse Hr)|exact Htrue].
Qed.

(** Once the consumer has returned, its passes do nothing. *)
Lemma run_returned (n : nat) (s : System) :
  returned s = true ->
  run enabled_providers console_log timeout_seconds start_time
    (replicate n Consume) s = Ok s.
Proof.
  intros Hret. induction n as [|n IH]; [done|].
  simpl. by rewrite Hret.
Qed.

(** A schedule of consumer passes alone is the consumer's loop. *)
Lemma run_consumer_loop (n : nat) (q : Queue.t TiltStatus) (w : World)
    (tr : list event) :
  run enabled_providers console_log timeout_seconds start_time
    (replicate n Consume)
    {| pitch_q := q; world := w; returned := false; trace := tr |}
  = let '(q', w', ev, ret) :=
      consumer_loop enabled_providers console_log timeout_seconds start_time
        n q w in
    Ok {| pitch_q := q'; world := w'; returned := ret; trace := tr ++ ev |}.
Proof.
  revert q w tr. induction n as [|n IH]; intros q w tr.
  - simpl. by rewrite app_nil_r.
  - simpl.
    destruct (consumer_pass enabled_providers console_log timeout_seconds
                start_time q w) as [[[q1 w1] ev1] ret].
    simpl. destruct ret.
    + by apply run_returned.
    + rewrite IH.
      destruct (consumer_loop enabled_providers console_log timeout_seconds
                  start_time n q1 w1) as [[[q2 w2] ev2] ret'].
      by rewrite app_assoc.
Qed.

End Runs.

(** ** Dispatch *)

Section Dispatch.

Context `{Collaborators}.

(** C1: a cycle that removes a Reading calls [update] of every enabled
    provider with that Reading, in registration order, each in the world
    that the one before it left, whatever the earlier providers return or
    raise; an exception of a provider is caught and its line printed by
    the cycle right after the call, and the providers after it are still
    called in the same cycle.  A pass of the consumer ends in [return]
    exactly when the timeout test says so; no run of the program raises,
    and every Reading removed in a run went to every provider.  The
    consumer's loop goes on to the next cycle whatever the providers did:
    as long as there are Readings, [fuel] passes remove the [fuel] oldest
    ones and hand each to every provider, unless the timeout test ended
    the loop before; without a time budget it never returns. *)
Theorem every_sink_attempted_despite_failures
    (enabled_providers : list Provider) (console_log : bool)
    (timeout_seconds start_time : Z) :
  (forall (q : Queue.t TiltStatus) (w : World) tilt_status rest,
     Queue.items q = tilt_status :: rest ->
     exists ev,
       _handle_pitch_queue enabled_providers console_log q w
         = Ok (Queue.Make (Queue.maxsize q) rest,
               updated_world tilt_status enabled_providers w, ev) /\
       calls ev = fan_out enabled_providers tilt_status /\
       forall before provider after e,
         enabled_providers = before ++ provider :: after ->
         (update provider tilt_status
            (updated_world tilt_status before w)).2 = Raise e ->
         exists ev1 ev2,
           ev = ev1 ++ [Update provider tilt_status;
                        failure_line provider tilt_status e] ++ ev2 /\
           calls ev1 = fan_out before tilt_status /\
           calls ev2 = fan_out after tilt_status) /\
  (forall (q : Queue.t TiltStatus) (w : World),
     let '(_, w', _, ret) :=
       consumer_pass enabled_providers console_log timeout_seconds
         start_time q w in
     ret = bool_decide (0 < timeout_seconds)
           && bool_decide (timeout_seconds < time_time w' - start_time)) /\
  (forall schedule s,
     exists s' enq rem,
       run enabled_providers console_log timeout_seconds start_time schedule s
         = Ok s' /\
       Queue.items (pitch_q s) ++ enq = rem ++ Queue.items (pitch_q s') /\
       calls (trace s') =
         calls (trace s) ++ flat_map (fan_out enabled_providers) rem /\
       (returned s' = true -> returned s = true \/ 0 < timeout_seconds)) /\
  (forall fuel (q : Queue.t TiltStatus) (w : World),
     (fuel <= length (Queue.items q))%nat ->
     let '(q', w', ev, ret) :=
       _run_queue_consumer fuel enabled_providers console_log
         timeout_seconds q w in
     exists k : nat,
       (k <= fuel)%nat /\
       q' = Queue.Make (Queue.maxsize q) (drop k (Queue.items q)) /\
       w' = foldl (fun w tilt_status =>
                     updated_world tilt_status enabled_providers w)
                  w (take k (Queue.items q)) /\
       calls ev
         = flat_map (fan_out enabled_providers) (take k (Queue.items q)) /\
       (ret = false -> k = fuel) /\
       (ret = true ->
        0 < timeout_seconds /\
        timeout_seconds < time_time w' - time_time w)) /\
  (forall fuel (q : Queue.t TiltStatus) (w : World),
     timeout_seconds <= 0 ->
     (_run_queue_consumer fuel enabled_providers console_log timeout_seconds
        q w).2 = false).
Proof.
  split; [|split; [|split; [|split]]].
  - intros q w tilt_status rest Hitems.
    rewrite (handle_reading _ _ _ _ _ _ Hitems), update_providers_world.
    eexists. split; [reflexivity|]. split.
    + destruct (update_providers_calls console_log tilt_status
                  enabled_providers w) as [Hcalls _].
      rewrite !calls_app, Hcalls.
      destruct (Queue.full q), console_log; simpl; by rewrite ?app_nil_r.
    + intros before provider after e -> Hraise.
      rewrite update_providers_app. simpl.
      rewrite update_providers_world.
      set (w1 := updated_world tilt_status before w) in *.
      destruct (update provider tilt_status w1) as [w2 r] eqn:Hup.
      simpl in Hraise. subst r.
      rewrite (update_provider_raise _ _ _ _ _ _ Hup).
      destruct (update_providers console_log tilt_status after w2)
        as [w3 ev3] eqn:Hafter.
      exists ((if Queue.full q then [QueueIsFull (Queue.qsize q)] else [])
              ++ (update_providers console_log tilt_status before w).2),
             (ev3 ++ if console_log then [Json tilt_status] else []).
      split; [simpl; by rewrite <- !app_assoc|]. split.
      * rewrite calls_app.
        destruct (update_providers_calls console_log tilt_status before w)
          as [-> _].
        by destruct (Queue.full q).
      * rewrite calls_app.
        pose proof (update_providers_calls console_log tilt_status after w2)
          as [Hc _]. rewrite Hafter in Hc. simpl in Hc. rewrite Hc.
        destruct console_log; simpl; by rewrite app_nil_r.
  - intros q w.
    destruct (consumer_pass_cycle enabled_providers console_log
                timeout_seconds start_time q w)
      as (q' & w' & ev & _ & ->).
    reflexivity.
  - intros schedule s.
    destruct (run_effect enabled_providers console_log timeout_seconds
                start_time schedule s)
      as (s' & enq & rem & Hrun & _ & Hitems & Hcalls & Hret & _).
    by exists s', enq, rem.
  - intros fuel q w Hfuel. unfold _run_queue_consumer.
    apply (consumer_loop_dispatches enabled_providers console_log
             timeout_seconds (time_time w) fuel q w Hfuel).
  - intros fuel q w Hbudget. unfold _run_queue_consumer.
    apply not_true_is_false. intros Hret.
    apply consumer_loop_returns in Hret. lia.
Qed.


End Dispatch.

(** ** What enters the queue, and how much *)

Section Bounded.

Context `{Collaborators}.

(** C3: whatever the decoded beacon, the producer call returns; a Reading
    is in the queue afterwards only if it was there before or was built
    from a colour of the identity table with both validity flags true; a
    packet whose identifier is not in the table builds no Reading and
    leaves the queue alone; a Reading with a false flag never reaches the
    queue.  Hence, in every run that starts with the empty queue, the
    queue holds only Readings of known colours with both flags true. *)
Theorem only_recognized_valid_readings_enter :
  (forall (q : Queue.t TiltStatus) (p : packet),
     exists q' ev,
       _beacon_callback q p = Ok (q', ev) /\
       (forall tilt_status, tilt_status ∈ Queue.items q' ->
          tilt_status ∈ Queue.items q \/
          exists color,
            uuid_to_colors !! uuid p = Some color /\
            tilt_status = reading_of color p /\
            temp_valid tilt_status = true /\
            gravity_valid tilt_status = true) /\
       (uuid_to_colors !! uuid p = None -> q' = q /\ ev = []) /\
       (forall color,
          uuid_to_colors !! uuid p = Some color ->
          temp_valid (reading_of color p) = false \/
          gravity_valid (reading_of color p) = false ->
          q' = q)) /\
  (forall (enabled_providers : list Provider) (console_log : bool)
          (timeout_seconds start_time : Z) (schedule : list action)
          (w : World),
     exists s',
       run enabled_providers console_log timeout_seconds start_time schedule
         {| pitch_q := pitch_q0; world := w; returned := false; trace := [] |}
         = Ok s' /\
       Forall recognized_and_valid (Queue.items (pitch_q s'))).
Proof.
  split.
  - intros q p.
    destruct (beacon_callback_cases q p)
      as (q' & ev & Hcb & _ & _
          & [->|(color & Hfull & Hcolor & Ht & Hg & -> & ->)]).
    + exists q, ev. split; [exact Hcb|]. split; [by left|].
      split; [|reflexivity].
      intros Hnone. split; [reflexivity|].
      unfold _beacon_callback in Hcb. rewrite Hnone in Hcb.
      destruct (Queue.full q); by inversion Hcb.
    + do 2 eexists. split; [exact Hcb|]. split; [|split].
      * simpl. intros tilt_status [Hold|Hnew]%elem_of_app; [by left|].
        apply list_elem_of_singleton in Hnew. subst tilt_status.
        right. exists color. repeat split; assumption.
      * intros Hnone. rewrite Hnone in Hcolor. discriminate Hcolor.
      * intros color' Hcolor' Hbad.
        rewrite Hcolor in Hcolor'. injection Hcolor' as <-.
        rewrite Ht, Hg in Hbad. by destruct Hbad.
  - intros enabled_providers console_log timeout_seconds start_time
      schedule w.
    apply run_recognized_and_valid. simpl. constructor.
Qed.

(** C2: in every interleaving of producer calls and consumer passes
    that starts from a queue of positive capacity holding no more than its
    capacity, no step raises and the queue never holds more than its
    capacity; a producer call returns a result in every case, leaves a full
    queue exactly as it is, and the insertion that follows a passed
    [full()] test cannot raise [Full], however many Readings the consumer
    removed in between. *)
Theorem insert_never_blocks_nor_raises
    (enabled_providers : list Provider) (console_log : bool)
    (timeout_seconds start_time : Z) (schedule : list action) (s : System) :
  0 < Queue.maxsize (pitch_q s) ->
  Queue.qsize (pitch_q s) <= Queue.maxsize (pitch_q s) ->
  (exists s',
     run enabled_providers console_log timeout_seconds start_time schedule s
       = Ok s' /\
     Queue.maxsize (pitch_q s') = Queue.maxsize (pitch_q s) /\
     Queue.qsize (pitch_q s') <= Queue.maxsize (pitch_q s')) /\
  (forall p : packet,
     exists q' ev,
       _beacon_callback (pitch_q s) p = Ok (q', ev) /\
       Queue.qsize q' <= Queue.maxsize q' /\
       (Queue.full (pitch_q s) = true -> q' = pitch_q s /\ ev = [])) /\
  (forall (taken : nat) (item : TiltStatus),
     Queue.full (pitch_q s) = false ->
     exists q',
       Queue.put_nowait
         (Queue.Make (Queue.maxsize (pitch_q s))
                     (drop taken (Queue.items (pitch_q s)))) item = Ok q').
Proof.
  intros Hpos Hle. split; [|split].
  - destruct (run_effect enabled_providers console_log timeout_seconds
                start_time schedule s)
      as (s' & enq & rem & Hrun & Hmax & _ & _ & _ & Hcap).
    exists s'. auto.
  - intros p.
    destruct (run_effect enabled_providers console_log timeout_seconds
                start_time [Beacon p] s)
      as (s' & enq & rem & Hrun & Hmax & _ & _ & _ & Hcap).
    simpl in Hrun.
    destruct (beacon_callback_cases (pitch_q s) p)
      as (q' & ev & Hcb & _ & _ & Hq).
    rewrite Hcb in Hrun. simpl in Hrun. injection Hrun as <-.
    exists q', ev. split; [exact Hcb|]. split; [by apply Hcap|].
    intros Hfull. unfold _beacon_callback in Hcb. rewrite Hfull in Hcb.
    by injection Hcb as <- <-.
  - intros taken item Hnf. eexists.
    apply put_nowait_not_full.
    unfold Queue.full, Queue.qsize in *. simpl.
    apply andb_false_iff in Hnf. apply andb_false_iff. right.
    destruct Hnf as [Hnf|Hnf]; apply bool_decide_eq_false in Hnf; [lia|].
    apply bool_decide_eq_false. rewrite length_drop. lia.
Qed.

(** A producer call on a full queue changes nothing, so a run of calls on
    it changes nothing. *)
Lemma after_attempts_full (q : Queue.t TiltStatus) (attempts : list packet) :
  Queue.full q = true -> after_attempts q attempts = q.
Proof.
  intros Hfull. induction attempts as [|p attempts IH]; [done|].
  simpl. unfold _beacon_callback. by rewrite Hfull.
Qed.

(** If one of the producer calls met a full queue, the queue is full when
    they are over. *)
Lemma found_at_capacity_full (q : Queue.t TiltStatus)
    (attempts : list packet) :
  found_at_capacity q attempts = true ->
  Queue.full (after_attempts q attempts) = true.
Proof.
  revert q. induction attempts as [|p attempts IH]; intros q; [done|].
  simpl. destruct (Queue.full q) eqn:Hfull; simpl.
  - intros _.
    rewrite <- (after_attempts_full q (p :: attempts) Hfull) in Hfull.
    exact Hfull.
  - destruct (_beacon_callback q p) as [[q' ev]|e]; [apply IH|done].
Qed.

(** A cycle is the warning, if the queue is full, followed by what the
    cycle does on a queue with the same Readings that is never full. *)
Lemma cycle_warning (ps : list Provider) (cl : bool)
    (q : Queue.t TiltStatus) (w : World) :
  exists q' w' ev',
    _handle_pitch_queue ps cl q w
      = Ok (q', w',
            (if Queue.full q then [QueueIsFull (Queue.qsize q)] else [])
            ++ ev') /\
    warnings ev' = [] /\
    _handle_pitch_queue ps cl (Queue.Make 0 (Queue.items q)) w
      = Ok (Queue.Make 0 (Queue.items q'), w', ev').
Proof.
  destruct (Queue.items q) as [|ts rest] eqn:Hitems.
  - rewrite (full_empty q Hitems).
    unfold _handle_pitch_queue, Queue.empty, Queue.get, Queue.qsize.
    rewrite (full_empty q Hitems), (full_empty (Queue.Make 0 []) eq_refl).
    simpl. rewrite Hitems. simpl.
    destruct (bool_decide (0 < queue_empty_sleep_seconds config)); simpl;
      eexists q, _, _; rewrite Hitems; by repeat split.
  - rewrite (handle_reading ps cl q w ts rest Hitems).
    rewrite (handle_reading ps cl (Queue.Make 0 (ts :: rest)) w ts rest
               eq_refl).
    eexists _, _, _. split; [reflexivity|]. split; [|reflexivity].
    destruct (update_providers_calls cl ts ps w) as [_ Hw].
    rewrite warnings_app, Hw. by destruct cl.
Qed.

(** A call of the producer prints no warning and touches nothing but the
    queue and the trace. *)
Lemma producer_step_quiet (ps : list Provider) (cl : bool)
    (timeout_seconds start_time : Z) (a : action) (s : System) :
  a <> Consume ->
  exists q' ev,
    step ps cl timeout_seconds start_time a s
    = Ok {| pitch_q := q'; world := world s; returned := returned s;
            trace := trace s ++ ev |} /\
    warnings ev = [] /\
    (forall p, a = Beacon p -> _beacon_callback (pitch_q s) p = Ok (q', ev)).
Proof.
  intros Hprod. destruct a as [manufacturer_data|p|]; [| |done]; simpl.
  - destruct (bleak_callback_cases (pitch_q s) manufacturer_data)
      as [->|(raw_data & p & _ & _ & ->)].
    + exists (pitch_q s), []. by repeat split.
    + destruct (beacon_callback_cases (pitch_q s) p)
        as (q' & ev & -> & _ & Hw & _).
      exists q', ev. by repeat split.
  - destruct (beacon_callback_cases (pitch_q s) p)
      as (q' & ev & Hcb & _ & Hw & _).
    exists q', ev. rewrite Hcb. repeat split; [exact Hw|].
    by intros p0 [= <-].
Qed.

(** The only step that prints a warning is the consumer's test of
    [pitch_q.full()], when the queue is full at that moment. *)
Lemma thread_step_warnings (ps : list Provider) (cl : bool)
    (timeout_seconds start_time : Z) (a : action) (t : Threads) :
  exists t',
    thread_step ps cl timeout_seconds start_time a t = Ok t' /\
    warnings (trace (shared t'))
    = warnings (trace (shared t))
      ++ (if is_full_test a t && Queue.full (pitch_q (shared t))
          then [Queue.qsize (pitch_q (shared t))] else []) /\
    (a <> Consume ->
     consumer t' = consumer t /\
     returned (shared t') = returned (shared t)).
Proof.
  assert (Hproducer : a <> Consume ->
    exists t',
      thread_step ps cl timeout_seconds start_time a t = Ok t' /\
      warnings (trace (shared t'))
      = warnings (trace (shared t))
        ++ (if is_full_test a t && Queue.full (pitch_q (shared t))
            then [Queue.qsize (pitch_q (shared t))] else []) /\
      (a <> Consume ->
       consumer t' = consumer t /\
       returned (shared t') = returned (shared t))); [|
    destruct a as [manufacturer_data|p|];
      [by apply Hproducer|by apply Hproducer|clear Hproducer]].
  - intros Hprod.
    destruct (producer_step_quiet ps cl timeout_seconds start_time a
                (shared t) Hprod) as (q' & ev & Hstep & Hw & _).
    exists {| shared := {| pitch_q := q'; world := world (shared t);
                           returned := returned (shared t);
                           trace := trace (shared t) ++ ev |};
              consumer := consumer t |}.
    split.
    + destruct a; [| |done]; unfold thread_step; cbv beta iota;
        by rewrite Hstep.
    + simpl. rewrite warnings_app, Hw.
      by destruct a.
  - eexists. split; [reflexivity|]. split; [|done].
    unfold consumer_step, is_full_test.
    destruct t as [[q w ret tr] pos]. simpl.
    destruct ret; [destruct pos; simpl; by rewrite app_nil_r|].
    destruct pos; simpl.
    + destruct (_ && _); simpl; [|by rewrite app_nil_r].
      by rewrite warnings_app.
    + rewrite warnings_app. by destruct (Queue.full q).
    + unfold Queue.get. destruct q as [maxsize [|ts rest]]; simpl.
      * by rewrite app_nil_r.
      * destruct (update_providers_calls cl ts ps w) as [_ Hw].
        destruct (update_providers cl ts ps w) as [w' ev]. simpl in *.
        rewrite !warnings_app, Hw. by destruct cl.
Qed.

Lemma interleave_app (ps : list Provider) (cl : bool)
    (timeout_seconds start_time : Z) (l1 l2 : list action) (t t1 : Threads) :
  interleave ps cl timeout_seconds start_time l1 t = Ok t1 ->
  interleave ps cl timeout_seconds start_time (l1 ++ l2) t
  = interleave ps cl timeout_seconds start_time l2 t1.
Proof.
  revert t. induction l1 as [|a l1 IH]; intros t; simpl.
  - by intros [= ->].
  - destruct (thread_step ps cl timeout_seconds start_time a t) as [t0|e];
      [|done].
    simpl. apply IH.
Qed.

(** Calls of the producer leave the consumer where it is and print no
    warning. *)
Lemma interleave_producers (ps : list Provider) (cl : bool)
    (timeout_seconds start_time : Z) (producers : list action)
    (t : Threads) :
  Forall (fun a => a <> Consume) producers ->
  exists t',
    interleave ps cl timeout_seconds start_time producers t = Ok t' /\
    consumer t' = consumer t /\
    returned (shared t') = returned (shared t) /\
    warnings (trace (shared t')) = warnings (trace (shared t)).
Proof.
  intros Hall. revert t.
  induction Hall as [|a producers Ha Hall IH]; intros t.
  - by exists t.
  - destruct (thread_step_warnings ps cl timeout_seconds start_time a t)
      as (t1 & Hstep & Hw & Hsame).
    destruct (Hsame Ha) as [Hpos Hret].
    destruct (IH t1) as (t' & Hrun & Hpos' & Hret' & Hw').
    exists t'. simpl. rewrite Hstep. simpl.
    split; [exact Hrun|]. split; [congruence|]. split; [congruence|].
    rewrite Hw', Hw.
    replace (is_full_test a t) with false by (by destruct a).
    by rewrite app_nil_r.
Qed.

(** Calls of the simulator's producer leave the queue that
    [after_attempts] tells. *)
Lemma interleave_attempts (ps : list Provider) (cl : bool)
    (timeout_seconds start_time : Z) (attempts : list packet)
    (t : Threads) :
  exists t',
    interleave ps cl timeout_seconds start_time (map Beacon attempts) t
    = Ok t' /\
    pitch_q (shared t') = after_attempts (pitch_q (shared t)) attempts /\
    consumer t' = consumer t /\
    returned (shared t') = returned (shared t) /\
    warnings (trace (shared t')) = warnings (trace (shared t)).
Proof.
  revert t. induction attempts as [|p attempts IH]; intros t.
  - by exists t.
  - destruct (producer_step_quiet ps cl timeout_seconds start_time (Beacon p)
                (shared t) ltac:(done)) as (q' & ev & Hstep & Hw & Hcb).
    specialize (Hcb p eq_refl).
    set (t1 := {| shared := {| pitch_q := q'; world := world (shared t);
                               returned := returned (shared t);
                               trace := trace (shared t) ++ ev |};
                  consumer := consumer t |}).
    destruct (IH t1) as (t' & Hrun & Hq & Hpos & Hret & Hw').
    exists t'. simpl in *. rewrite Hcb in *. simpl.
    split; [exact Hrun|]. split; [exact Hq|].
    split; [exact Hpos|]. split; [exact Hret|].
    by rewrite Hw', warnings_app, Hw, app_nil_r.
Qed.

(** On a full queue a call of the producer changes nothing. *)
Lemma producer_step_full (ps : list Provider) (cl : bool)
    (timeout_seconds start_time : Z) (a : action) (s : System) :
  a <> Consume ->
  Queue.full (pitch_q s) = true ->
  step ps cl timeout_seconds start_time a s
  = Ok {| pitch_q := pitch_q s; world := world s; returned := returned s;
          trace := trace s ++ [] |}.
Proof.
  intros Hprod Hfull.
  assert (Hcb : forall p, _beacon_callback (pitch_q s) p = Ok (pitch_q s, [])).
  { intros p. unfold _beacon_callback. by rewrite Hfull. }
  destruct a as [manufacturer_data|p|]; [| |done]; simpl.
  - destruct (bleak_callback_cases (pitch_q s) manufacturer_data)
      as [->|(raw_data & p & _ & _ & ->)]; [done|].
    by rewrite Hcb.
  - by rewrite Hcb.
Qed.

Lemma interleave_producers_full (ps : list Provider) (cl : bool)
    (timeout_seconds start_time : Z) (producers : list action)
    (t : Threads) :
  Forall (fun a => a <> Consume) producers ->
  Queue.full (pitch_q (shared t)) = true ->
  exists t',
    interleave ps cl timeout_seconds start_time producers t = Ok t' /\
    consumer t' = consumer t /\
    returned (shared t') = returned (shared t) /\
    pitch_q (shared t') = pitch_q (shared t) /\
    warnings (trace (shared t')) = warnings (trace (shared t)).
Proof.
  intros Hall. revert t.
  induction Hall as [|a producers Ha Hall IH]; intros t Hfull.
  - by exists t.
  - pose proof (producer_step_full ps cl timeout_seconds start_time a
                  (shared t) Ha Hfull) as Hstep.
    set (t1 := {| shared := {| pitch_q := pitch_q (shared t);
                               world := world (shared t);
                               returned := returned (shared t);
                               trace := trace (shared t) ++ [] |};
                  consumer := consumer t |}).
    destruct (IH t1 Hfull) as (t' & Hrun & Hpos & Hret & Hq & Hw).
    exists t'. split.
    + simpl. destruct a; [| |done]; unfold thread_step; cbv beta iota;
        rewrite Hstep; exact Hrun.
    + simpl in *. by rewrite app_nil_r in Hw.
Qed.

(** A full queue stays full until the consumer's test, which prints the
    warning, whatever the producer does in between. *)
Lemma full_before_test_warns (ps : list Provider) (cl : bool)
    (timeout_seconds start_time : Z) (producers1 producers2 : list action)
    (t : Threads) :
  consumer t <> AtGet ->
  returned (shared t) = false ->
  Queue.full (pitch_q (shared t)) = true ->
  Forall (fun a => a <> Consume) producers1 ->
  Forall (fun a => a <> Consume) producers2 ->
  exists t',
    interleave ps cl timeout_seconds start_time
      (producers1
       ++ match consumer t with
          | AtEmptyTest => [Consume] ++ producers2 ++ [Consume]
          | _ => [Consume]
          end) t = Ok t' /\
    consumer t' = AtGet /\
    pitch_q (shared t') = pitch_q (shared t) /\
    warnings (trace (shared t'))
    = warnings (trace (shared t)) ++ [Queue.qsize (pitch_q (shared t))].
Proof.
  intros Hpos Hret Hfull Hall1 Hall2.
  assert (Hnonempty : Queue.empty (pitch_q (shared t)) = false).
  { unfold Queue.full in Hfull. apply andb_true_iff in Hfull as [Hm Hs].
    apply bool_decide_eq_true in Hm. apply bool_decide_eq_true in Hs.
    apply bool_decide_eq_false. lia. }
  destruct (interleave_producers_full ps cl timeout_seconds start_time
              producers1 t Hall1 Hfull)
    as (t1 & Hrun1 & Hpos1 & Hret1 & Hq1 & Hw1).
  rewrite (interleave_app _ _ _ _ _ _ _ _ Hrun1).
  destruct t1 as [[q1 w1 ret1 tr1] pos1]. simpl in *. subst q1 ret1 pos1.
  rewrite Hret.
  destruct (consumer t); [| |done].
  - simpl. unfold consumer_step at 1. simpl.
    rewrite Hnonempty, andb_false_r.
    destruct (interleave_producers_full ps cl timeout_seconds start_time
                producers2
                {| shared := {| pitch_q := pitch_q (shared t); world := w1;
                                returned := false; trace := tr1 |};
                   consumer := AtFullTest |} Hall2 Hfull)
      as (t2 & Hrun2 & Hpos2 & Hret2 & Hq2 & Hw2).
    rewrite (interleave_app _ _ _ _ _ _ _ _ Hrun2).
    destruct t2 as [[q2 w2 ret2 tr2] pos2]. simpl in *. subst q2 ret2 pos2.
    unfold consumer_step. simpl. rewrite Hfull.
    eexists. split; [reflexivity|]. simpl.
    rewrite warnings_app, Hw2, Hw1. by repeat split.
  - simpl. unfold consumer_step. simpl. rewrite Hfull.
    eexists. split; [reflexivity|]. simpl.
    rewrite warnings_app, Hw1. by repeat split.
Qed.

(** C8, as the code has it: a cycle prints the warning, once and with the
    queue's length, exactly when the queue is full at the moment the cycle
    tests it, and apart from the warning it does what it does on a queue
    with the same Readings that is never full.  With the producer running
    between the consumer's accesses to the queue, the only step that
    prints a warning is the consumer's test of [pitch_q.full()] on a queue
    that is full at that moment; a pass whose accesses no producer call
    separates is the cycle above.  Producer calls made after the test,
    while the consumer waits in [get], are followed by no warning in this
    pass, whether or not they met a full queue.  When a producer call made
    before the test met a full queue, the queue stays full up to the test,
    whatever the producer does in between, and the test prints the
    warning. *)
Theorem warning_iff_full_at_cycle
    (enabled_providers : list Provider) (console_log : bool)
    (timeout_seconds start_time : Z) :
  (forall (q : Queue.t TiltStatus) (w : World),
     exists q' w' ev ev',
       _handle_pitch_queue enabled_providers console_log q w
         = Ok (q', w', ev) /\
       warnings ev = (if Queue.full q then [Queue.qsize q] else []) /\
       ev = (if Queue.full q then [QueueIsFull (Queue.qsize q)] else [])
            ++ ev' /\
       _handle_pitch_queue enabled_providers console_log
         (Queue.Make 0 (Queue.items q)) w
         = Ok (Queue.Make 0 (Queue.items q'), w', ev')) /\
  (forall (a : action) (t : Threads),
     exists t',
       thread_step enabled_providers console_log timeout_seconds start_time
         a t = Ok t' /\
       warnings (trace (shared t'))
       = warnings (trace (shared t))
         ++ (if is_full_test a t && Queue.full (pitch_q (shared t))
             then [Queue.qsize (pitch_q (shared t))] else [])) /\
  (forall s : System,
     returned s = false ->
     exists s',
       step enabled_providers console_log timeout_seconds start_time
         Consume s = Ok s' /\
       interleave enabled_providers console_log timeout_seconds start_time
         (replicate
            (if bool_decide (0 < queue_empty_sleep_seconds config)
                && Queue.empty (pitch_q s)
             then 1%nat else 3%nat)
            Consume)
         {| shared := s; consumer := AtEmptyTest |}
       = Ok {| shared := s'; consumer := AtEmptyTest |}) /\
  (forall (t : Threads) (producers : list action),
     consumer t = AtGet ->
     returned (shared t) = false ->
     Forall (fun a => a <> Consume) producers ->
     exists t',
       interleave enabled_providers console_log timeout_seconds start_time
         (producers ++ [Consume]) t = Ok t' /\
       consumer t' = AtEmptyTest /\
       warnings (trace (shared t')) = warnings (trace (shared t))) /\
  (forall (t : Threads) (attempts : list packet)
          (producers1 producers2 : list action),
     consumer t <> AtGet ->
     returned (shared t) = false ->
     found_at_capacity (pitch_q (shared t)) attempts = true ->
     Forall (fun a => a <> Consume) producers1 ->
     Forall (fun a => a <> Consume) producers2 ->
     exists t',
       interleave enabled_providers console_log timeout_seconds start_time
         (map Beacon attempts ++ producers1
          ++ match consumer t with
             | AtEmptyTest => [Consume] ++ producers2 ++ [Consume]
             | _ => [Consume]
             end) t = Ok t' /\
       consumer t' = AtGet /\
       pitch_q (shared t') = after_attempts (pitch_q (shared t)) attempts /\
       Queue.full (pitch_q (shared t')) = true /\
       warnings (trace (shared t'))
       = warnings (trace (shared t)) ++ [Queue.qsize (pitch_q (shared t'))]).
Proof.
  split; [|split; [|split; [|split]]].
  - intros q w.
    destruct (cycle_warning enabled_providers console_log q w)
      as (q' & w' & ev' & Hh & Hw & Hunbounded).
    eexists q', w', _, ev'. split; [exact Hh|].
    split; [|split; [reflexivity|exact Hunbounded]].
    rewrite warnings_app, Hw. by destruct (Queue.full q).
  - intros a t.
    destruct (thread_step_warnings enabled_providers console_log
                timeout_seconds start_time a t) as (t' & Hstep & Hw & _).
    by exists t'.
  - intros [q w ret tr] Hret. simpl in Hret. subst ret.
    simpl step. unfold consumer_pass, _handle_pitch_queue.
    cbn [pitch_q world returned trace].
    destruct (bool_decide (0 < queue_empty_sleep_seconds config)
              && Queue.empty q) eqn:Hidle.
    + eexists. split; [reflexivity|].
      simpl. unfold consumer_step. simpl. by rewrite Hidle.
    + simpl. unfold consumer_step. simpl. rewrite Hidle. simpl.
      unfold Queue.get. destruct (Queue.items q) as [|ts rest] eqn:Hitems.
      * eexists. split; [reflexivity|]. reflexivity.
      * destruct (update_providers console_log ts enabled_providers w)
          as [w' ev].
        eexists. split; [reflexivity|].
        by rewrite <- !app_assoc.
  - intros t producers Hpos Hret Hall.
    destruct (interleave_producers enabled_providers console_log
                timeout_seconds start_time producers t Hall)
      as (t1 & Hrun & Hpos1 & Hret1 & Hw1).
    destruct (thread_step_warnings enabled_providers console_log
                timeout_seconds start_time Consume t1)
      as (t' & Hstep & Hw & _).
    exists t'. rewrite (interleave_app _ _ _ _ _ _ _ _ Hrun).
    simpl in *. injection Hstep as Hstep.
    split; [by rewrite Hstep|]. split.
    + subst t'. unfold consumer_step. rewrite Hret1, Hret, Hpos1, Hpos.
      destruct (Queue.get _) as [[ts q']|[]]; try reflexivity.
      by destruct (update_providers _ _ _ _).
    + rewrite Hw, Hw1. unfold is_full_test. rewrite Hpos1, Hpos.
      by rewrite app_nil_r.
  - intros t attempts producers1 producers2 Hpos Hret Hfound Hall1 Hall2.
    destruct (interleave_attempts enabled_providers console_log
                timeout_seconds start_time attempts t)
      as (t1 & Hrun & Hq1 & Hpos1 & Hret1 & Hw1).
    pose proof (found_at_capacity_full _ _ Hfound) as Hfull.
    rewrite <- Hq1 in Hfull.
    rewrite (interleave_app _ _ _ _ _ _ _ _ Hrun).
    destruct (full_before_test_warns enabled_providers console_log
                timeout_seconds start_time producers1 producers2 t1)
      as (t' & Hrun' & Hpos' & Hq' & Hw'); try assumption; try congruence.
    exists t'. rewrite Hpos1 in Hrun'.
    split; [exact Hrun'|]. split; [exact Hpos'|].
    split; [congruence|]. split; [congruence|].
    rewrite Hw', Hw1. by rewrite Hq'.
Qed.

End Bounded.

(** ** The scenarios of the specification *)

Section Scenario.

Context `{Collaborators}.

(** Every colour of the identity table is a non-empty string, so the test
    [if color:] passes for every identifier of the table. *)
Lemma known_color_nonempty (u color : string) :
  uuid_to_colors !! u = Some color -> color <> EmptyString.
Proof.
  intros Hlook. apply elem_of_list_to_map_2 in Hlook.
  repeat (apply elem_of_cons in Hlook as [Hlook|Hlook];
          [by injection Hlook as _ ->|]).
  by apply elem_of_nil in Hlook.
Qed.

(** A packet of a known colour whose Reading has both flags true goes to
    the end of a queue that is not full. *)
Lemma beacon_callback_accepts (q : Queue.t TiltStatus) (p : packet)
    (color : string) :
  Queue.full q = false ->
  uuid_to_colors !! uuid p = Some color ->
  temp_valid (reading_of color p) = true ->
  gravity_valid (reading_of color p) = true ->
  _beacon_callback q p
    = Ok (Queue.Make (Queue.maxsize q) (Queue.items q ++ [reading_of color p]),
          [Built (reading_of color p)]).
Proof.
  intros Hnf Hcolor Ht Hg. unfold _beacon_callback.
  rewrite Hnf, Hcolor.
  rewrite bool_decide_true by (by eapply known_color_nonempty).
  fold (reading_of color p). rewrite Ht, Hg. simpl.
  by rewrite put_nowait_not_full.
Qed.

(** C7, as the code has it: the payload 02 15, sixteen bytes of a known
    identifier, 00 46 04 0b b8 and anything after decodes to major 70,
    minor 1035 (04 0b big-endian) and tx power -72, hence 70 F and gravity
    1.035; when the Reading built from them has both flags true, the
    scanner's callback puts it in the empty queue, and a cycle with one
    provider whose [update] always returns calls that [update] exactly once,
    with that Reading, and empties the queue. *)
Theorem scenario_known_identifier
    (identifier tail : list byte) (color : string)
    (manufacturer_data : gmap Z (list byte))
    (sink : Provider) (console_log : bool) (w : World) :
  let raw_data :=
    [x02; x15] ++ identifier ++ [x00; x46; x04; x0b; xb8] ++ tail in
  let p := Packet (Uuid.format (Uuid.hex identifier)) 70 1035 (-72) in
  let tilt_status := reading_of color p in
  length identifier = 16%nat ->
  uuid_to_colors !! Uuid.format (Uuid.hex identifier) = Some color ->
  manufacturer_data !! APPLE_MANUFACTURER_ID = Some raw_data ->
  temp_valid tilt_status = true ->
  gravity_valid tilt_status = true ->
  (forall t w0, (update sink t w0).2 = Ok ()) ->
  parse raw_data = Ok (Some p) /\
  _get_decimal_gravity (minor p) = 0x1.08f5c28f5c28fp+0%float /\
  tilt_status = new_TiltStatus color 70 0x1.08f5c28f5c28fp+0%float config /\
  bleak_callback pitch_q0 manufacturer_data
    = Ok (Queue.Make (queue_size config) [tilt_status], [Built tilt_status]) /\
  exists w' ev,
    _handle_pitch_queue [sink] console_log
      (Queue.Make (queue_size config) [tilt_status]) w
      = Ok (Queue.Make (queue_size config) [], w', ev) /\
    calls ev = [(sink, tilt_status)] /\
    ev = (if bool_decide (queue_size config = 1) then [QueueIsFull 1] else [])
         ++ Update sink tilt_status
         :: (if console_log
             then [Updated sink tilt_status; Json tilt_status] else []).
Proof.
  intros raw_data p tilt_status Hlen Hcolor Hdata Ht Hg Hsink.
  assert (Hparse : parse raw_data = Ok (Some p)).
  { destruct (parse_long raw_data) as (b0 & b1 & H0 & H1 & ->).
    { unfold raw_data. rewrite !length_app, Hlen. simpl. lia. }
    unfold raw_data in H0, H1. simpl in H0, H1.
    injection H0 as <-. injection H1 as <-.
    rewrite !bool_decide_false by (intros Hne; by apply Hne).
    do 2 f_equal. unfold decoded, p.
    assert (Hslices : forall lo hi : nat, (lo <= hi)%nat -> (hi <= 23)%nat ->
              slice raw_data lo hi
              = slice ([x02; x15] ++ identifier ++ [x00; x46; x04; x0b; xb8])
                  lo hi).
    { intros lo hi Hlo Hhi.
      rewrite <- (slice_take raw_data 23 lo hi) by done.
      f_equal. unfold raw_data.
      rewrite !(assoc_L (++)). apply take_app_length'.
      rewrite !length_app, Hlen. reflexivity. }
    rewrite !Hslices by lia.
    do 16 (destruct identifier as [|? identifier]; [discriminate Hlen|]).
    destruct identifier; [|discriminate Hlen].
    reflexivity. }
  split; [exact Hparse|].
  split; [reflexivity|]. split; [reflexivity|].
  split.
  - unfold bleak_callback. rewrite Hdata, Hparse. simpl.
    apply (beacon_callback_accepts pitch_q0 p color);
      [by apply full_empty|exact Hcolor|exact Ht|exact Hg].
  - destruct (cycle_with_reading console_log [sink]
                (Queue.Make (queue_size config) [tilt_status]) w
                tilt_status [] eq_refl) as (w' & ev & Hh & Hcalls & Hev).
    exists w', ev. split; [exact Hh|]. split; [exact Hcalls|].
    rewrite Hev. simpl.
    destruct (update sink tilt_status w) as [w1 r] eqn:Hup.
    pose proof (Hsink tilt_status w) as Hok. rewrite Hup in Hok.
    simpl in Hok. subst r.
    rewrite (update_provider_ok _ _ _ _ _ _ Hup). simpl.
    assert (Hfull : Queue.full (Queue.Make (queue_size config) [tilt_status])
                    = bool_decide (queue_size config = 1)).
    { unfold Queue.full, Queue.qsize. simpl.
      repeat case_bool_decide; simpl; try reflexivity; lia. }
    rewrite Hfull. unfold Queue.qsize. simpl.
    by destruct console_log.
Qed.

End Scenario.

(** ** The properties on concrete inputs *)

Section Examples.

(** The scenario's payload with the green identifier does not decode to
    minor 1000 nor to gravity 1.000: bytes 04 0b are 1035. *)
Lemma scenario_minor_is_not_1000 :
  exists p,
    parse Demo.green_payload = Ok (Some p) /\
    major p = 70 /\
    minor p = 1035 /\
    minor p <> 1000 /\
    PrimFloat.eqb (_get_decimal_gravity (minor p)) 1%float = false.
Proof.
  exists Demo.green_packet.
  split; [by vm_compute|].
  split; [reflexivity|]. split; [reflexivity|].
  split; [by vm_compute|by vm_compute].
Qed.

(** A cycle warns although no producer call since the last removal met a
    full queue: the first cycle empties the queue, the one call that
    follows finds room and fills it, the second cycle prints the warning. *)
Lemma warning_without_rejected_insert :
  exists q1 w1 ev1 q2 w2 ev2,
    _handle_pitch_queue (H:=demo) [Demo.steady 1 0] false
      (Queue.Make 1 [Demo.red_reading 1 0]) 0 = Ok (q1, w1, ev1) /\
    found_at_capacity (H:=demo) q1 [Demo.green_packet] = false /\
    _handle_pitch_queue (H:=demo) [Demo.steady 1 0] false
      (after_attempts (H:=demo) q1 [Demo.green_packet]) w1 = Ok (q2, w2, ev2) /\
    warnings (H:=demo) ev2 = [1].
Proof.
  eexists _, _, _, _, _, _.
  split; [by vm_compute|].
  split; [by vm_compute|].
  split; [by vm_compute|by vm_compute].
Qed.

(** A producer call is rejected and no cycle warns of it: the consumer
    tests the empty queue of capacity 1 and waits in [get]; the first call
    fills the queue, the second one meets a full queue and is dropped;
    [get] returns the first Reading, which goes to the sink, and the next
    pass finds the queue empty. *)
Lemma rejected_insert_without_warning :
  found_at_capacity (H:=demo) (pitch_q0 (H:=demo))
    [Demo.green_packet; Demo.green_packet] = true /\
  exists t',
    interleave (H:=demo) [Demo.steady 1 0] false 0 0
      [Consume; Consume; Beacon Demo.green_packet; Beacon Demo.green_packet;
       Consume; Consume; Consume; Consume]
      (Build_Threads (H:=demo)
         (Build_System (H:=demo) (pitch_q0 (H:=demo)) 0 false [])
         AtEmptyTest)
    = Ok t' /\
    calls (H:=demo) (trace (H:=demo) (shared (H:=demo) t'))
    = [(Demo.steady 1 0, Demo.green_reading 1 0)] /\
    warnings (H:=demo) (trace (H:=demo) (shared (H:=demo) t')) = [] /\
    Queue.items (pitch_q (H:=demo) (shared (H:=demo) t')) = [].
Proof.
  split; [by vm_compute|].
  eexists. split; [by vm_compute|].
  split; [by vm_compute|]. split; by vm_compute.
Qed.

Lemma every_sink_attempted_despite_failures_witness :
  exists ev ev1 ev2,
    _handle_pitch_queue (H:=demo)
      [Demo.steady 1 0; Demo.broken 1 0; Demo.limited 1 0; Demo.steady 1 0]
      true (Queue.Make 1 [Demo.green_reading 1 0]) 0
      = Ok (Queue.Make 1 [], 2, ev) /\
    ev = ev1 ++ [Update (H:=demo) (Demo.broken 1 0) (Demo.green_reading 1 0);
                 Printed (H:=demo) (Exception "connection refused")] ++ ev2 /\
    calls (H:=demo) ev2
      = fan_out (H:=demo) [Demo.limited 1 0; Demo.steady 1 0]
          (Demo.green_reading 1 0).
Proof.
  destruct (proj1 (every_sink_attempted_despite_failures (H:=demo)
                     [Demo.steady 1 0; Demo.broken 1 0; Demo.limited 1 0;
                      Demo.steady 1 0] true 0 0)
              (Queue.Make 1 [Demo.green_reading 1 0]) 0
              (Demo.green_reading 1 0) [] eq_refl)
    as (ev & Hh & _ & Hfail).
  destruct (Hfail [Demo.steady 1 0] (Demo.broken 1 0)
              [Demo.limited 1 0; Demo.steady 1 0]
              (Exception "connection refused") eq_refl eq_refl)
    as (ev1 & ev2 & Hev & _ & Hafter).
  exists ev, ev1, ev2. split; [exact Hh|]. split; [exact Hev|exact Hafter].
Defined.


Lemma insert_never_blocks_nor_raises_witness :
  (0 < 1 /\ 0 <= 1) /\
  exists s',
    run (H:=demo) [Demo.steady 1 0] false 0 0
      [Beacon Demo.green_packet; Beacon Demo.green_packet; Consume;
       Advertise {[ APPLE_MANUFACTURER_ID := Demo.green_payload ]}]
      (Build_System (H:=demo) (pitch_q0 (H:=demo)) 0 false [])
      = Ok s' /\
    Queue.maxsize (pitch_q (H:=demo) s') = 1 /\
    Queue.qsize (pitch_q (H:=demo) s') <= Queue.maxsize (pitch_q (H:=demo) s').
Proof.
  split; [lia|].
  apply (insert_never_blocks_nor_raises (H:=demo) [Demo.steady 1 0] false 0 0
           [Beacon Demo.green_packet; Beacon Demo.green_packet; Consume;
            Advertise {[ APPLE_MANUFACTURER_ID := Demo.green_payload ]}]
           (Build_System (H:=demo) (pitch_q0 (H:=demo)) 0 false []));
    [reflexivity|by vm_compute].
Defined.

Lemma only_recognized_valid_readings_enter_witness :
  exists q' ev,
    _beacon_callback (H:=demo) (Queue.Make 2 [Demo.red_reading 1 0])
      Demo.green_packet = Ok (q', ev).
Proof.
  destruct (proj1 (only_recognized_valid_readings_enter (H:=demo))
              (Queue.Make 2 [Demo.red_reading 1 0]) Demo.green_packet)
    as (q' & ev & Hcb & _).
  by exists q', ev.
Defined.

Lemma full_queue_returns_before_lookup_witness :
  Queue.full (Queue.Make 1 [Demo.red_reading 1 0]) = true /\
  _beacon_callback (H:=demo) (Queue.Make 1 [Demo.red_reading 1 0]) Demo.green_packet
    = Ok (Queue.Make 1 [Demo.red_reading 1 0], []).
Proof.
  split; [reflexivity|].
  apply (full_queue_returns_before_lookup (H:=demo)
           (Queue.Make 1 [Demo.red_reading 1 0])).
  reflexivity.
Defined.

Lemma scenario_known_identifier_witness :
  parse ([x02; x15] ++ Demo.green_id ++ [x00; x46; x04; x0b; xb8] ++ [xc5])
    = Ok (Some Demo.green_packet) /\
  bleak_callback (H:=demo) pitch_q0
    {[ APPLE_MANUFACTURER_ID :=
         [x02; x15] ++ Demo.green_id ++ [x00; x46; x04; x0b; xb8] ++ [xc5] ]}
    = Ok (Queue.Make 1 [Demo.green_reading 1 0],
          [Built (H:=demo) (Demo.green_reading 1 0)]).
Proof.
  destruct (scenario_known_identifier (H:=demo) Demo.green_id [xc5] "green"
              {[ APPLE_MANUFACTURER_ID :=
                   [x02; x15] ++ Demo.green_id
                   ++ [x00; x46; x04; x0b; xb8] ++ [xc5] ]}
              (Demo.steady 1 0) false 0)
    as (Hparse & _ & _ & Hcb & _);
    [reflexivity | by vm_compute | by vm_compute | reflexivity | reflexivity
    | reflexivity | ].
  split; [exact Hparse|exact Hcb].
Defined.

(** The consumer has tested the empty queue of capacity 1 and waits in
    [get]; the producer's first call fills the queue, its second call is
    rejected; [get] returns the first Reading: no warning is printed. *)
Lemma warning_iff_full_at_cycle_witness :
  found_at_capacity (H:=demo) (pitch_q0 (H:=demo))
    [Demo.green_packet; Demo.green_packet] = true /\
  exists t',
    interleave (H:=demo) [Demo.steady 1 0] false 0 0
      ([Beacon Demo.green_packet; Beacon Demo.green_packet] ++ [Consume])
      (Build_Threads (H:=demo)
         (Build_System (H:=demo) (pitch_q0 (H:=demo)) 0 false []) AtGet)
    = Ok t' /\
    consumer (H:=demo) t' = AtEmptyTest /\
    warnings (H:=demo) (trace (H:=demo) (shared (H:=demo) t')) = [].
Proof.
  split; [reflexivity|].
  apply (proj1 (proj2 (proj2 (proj2
           (warning_iff_full_at_cycle (H:=demo) [Demo.steady 1 0] false
              0 0))))
           (Build_Threads (H:=demo)
              (Build_System (H:=demo) (pitch_q0 (H:=demo)) 0 false []) AtGet)
           [Beacon Demo.green_packet; Beacon Demo.green_packet]);
    [reflexivity | reflexivity | by repeat constructor].
Defined.

End Examples.


(** * Further properties of the code *)

(** ** More on the decoder *)

Section DecoderMore.

Import Struct.

Lemma byte_val_range (b : byte) : 0 <= byte_val b < 256.
Proof.
  unfold byte_val. pose proof (Byte.to_N_bounded b). lia.
Qed.

Lemma byte_of_Z_val (b : byte) : Layout.byte_of_Z (byte_val b) = b.
Proof.
  unfold Layout.byte_of_Z.
  rewrite Z.mod_small by apply byte_val_range.
  unfold byte_val. by rewrite N2Z.id, Byte.of_to_N.
Qed.

Lemma byte_of_Z_mod (n : Z) :
  Layout.byte_of_Z (n mod 256) = Layout.byte_of_Z n.
Proof.
  unfold Layout.byte_of_Z. by rewrite Z.mod_mod.
Qed.

Lemma be_uint_pair (a b : byte) :
  be_uint [a; b] = byte_val a * 256 + byte_val b.
Proof. reflexivity. Qed.

Lemma u16_be_uint (a b : byte) : Layout.u16_be (be_uint [a; b]) = [a; b].
Proof.
  rewrite be_uint_pair. unfold Layout.u16_be.
  pose proof (byte_val_range a). pose proof (byte_val_range b).
  f_equal; [|f_equal].
  - rewrite Z.div_add_l, Z.div_small, Z.add_0_r by lia.
    apply byte_of_Z_val.
  - rewrite <- byte_of_Z_mod.
    rewrite Z.add_comm, Z.mod_add, Z.mod_small by lia.
    apply byte_of_Z_val.
Qed.

Lemma i8_be_int (c : byte) : Layout.i8 (be_int [c]) = [c].
Proof.
  unfold Layout.i8, be_int. f_equal.
  change (be_uint [c]) with (byte_val c).
  change (2 ^ (8 * Z.of_nat (length [c]) - 1)) with 128.
  pose proof (byte_val_range c).
  destruct (byte_val c <? 128); [apply byte_of_Z_val|].
  rewrite <- byte_of_Z_mod.
  replace (byte_val c - 2 * 128) with (byte_val c + (-1) * 256) by lia.
  rewrite Z.mod_add, Z.mod_small by lia.
  apply byte_of_Z_val.
Qed.

Lemma be_uint_pair_range (a b : byte) : 0 <= be_uint [a; b] < 65536.
Proof.
  rewrite be_uint_pair.
  pose proof (byte_val_range a). pose proof (byte_val_range b). lia.
Qed.

Lemma be_int_byte_range (c : byte) : -128 <= be_int [c] < 128.
Proof.
  unfold be_int. change (be_uint [c]) with (byte_val c).
  change (2 ^ (8 * Z.of_nat (length [c]) - 1)) with 128.
  pose proof (byte_val_range c).
  destruct (Z.ltb_spec (byte_val c) 128); lia.
Qed.

(** What a recognized payload looks like. *)
Lemma parse_some_inv (d : list byte) (p : packet) :
  parse d = Ok (Some p) ->
  (23 <= length d)%nat /\
  d !! 0%nat = Some x02 /\ d !! 1%nat = Some x15 /\
  p = decoded d.
Proof.
  intros Hparse.
  destruct (decide (length d < 23)%nat) as [Hshort|Hlong].
  { by rewrite (parse_short d Hshort) in Hparse. }
  destruct (parse_long d) as (b0 & b1 & H0 & H1 & Hp); [lia|].
  rewrite Hp in Hparse.
  case_bool_decide as Hb0; [done|].
  case_bool_decide as Hb1; [done|].
  split; [lia|].
  rewrite (byte_val_inj b0 x02 Hb0) in H0.
  rewrite (byte_val_inj b1 x15 Hb1) in H1.
  by simplify_eq.
Qed.

(** A payload that is too short or has the wrong marker bytes. *)
Lemma parse_unrecognized (d : list byte) :
  (length d < 23)%nat \/ take 2 d <> [x02; x15] -> parse d = Ok None.
Proof.
  intros Hbad.
  destruct (parse_total d) as [[p|] Hparse]; [|exact Hparse].
  destruct (parse_some_inv d p Hparse) as (Hlen & H0 & H1 & _).
  destruct Hbad as [Hshort|Hmarker]; [lia|].
  destruct d as [|c0 [|c1 d']]; simpl in Hlen; try lia.
  simpl in *. by simplify_eq.
Qed.

(** X1: every packet that [parse] returns has a major and a minor in
    0..65535, a tx power in -128..127 and a 36-character identifier with
    hyphens at positions 8, 13, 18 and 23. *)
Theorem parse_fields_in_range (d : list byte) (p : packet) :
  parse d = Ok (Some p) ->
  0 <= major p < 65536 /\
  0 <= minor p < 65536 /\
  -128 <= tx_power p < 128 /\
  String.length (uuid p) = 36%nat /\
  Forall (fun i => String.get i (uuid p) = Some "-"%char)
         [8; 13; 18; 23]%nat.
Proof.
  intros Hparse.
  destruct (parse_some_inv d p Hparse) as (Hlen & _ & _ & ->).
  do 23 (destruct d as [|? d]; [simpl in Hlen; lia|]).
  unfold decoded, slice. simpl drop. simpl take.
  cbn [major minor tx_power uuid].
  split; [apply be_uint_pair_range|].
  split; [apply be_uint_pair_range|].
  split; [apply be_int_byte_range|].
  split; [reflexivity|].
  repeat constructor.
Qed.

(** X2: encoding the fields of a decoded packet by the documented layout
    gives back the first 23 bytes of the payload: the identifier string
    reads back as bytes 2-17, and nothing of the 23 bytes is lost. *)
Theorem parse_reencode (d : list byte) (p : packet) :
  parse d = Ok (Some p) ->
  Uuid.bytes_of_str (uuid p) = Some (slice d 2 18) /\
  Layout.payload (slice d 2 18) (major p) (minor p) (tx_power p)
    = take 23 d.
Proof.
  intros Hparse.
  destruct (parse_some_inv d p Hparse) as (Hlen & H0 & H1 & ->).
  split.
  - apply bytes_of_str_format. rewrite length_slice; lia.
  - do 23 (destruct d as [|? d]; [simpl in Hlen; lia|]).
    simpl in H0, H1. simplify_eq.
    unfold decoded, slice, Layout.payload. simpl drop. simpl take.
    cbn [major minor tx_power].
    by rewrite !u16_be_uint, i8_be_int.
Qed.

(** X3: two payloads that decode to the same packet agree on their first
    23 bytes: different beacons are never taken for one another. *)
Theorem parse_injective (d1 d2 : list byte) (p : packet) :
  parse d1 = Ok (Some p) ->
  parse d2 = Ok (Some p) ->
  take 23 d1 = take 23 d2.
Proof.
  intros Hp1 Hp2.
  destruct (parse_some_inv d1 p Hp1) as (Hl1 & Ha0 & Ha1 & Hd1).
  destruct (parse_some_inv d2 p Hp2) as (Hl2 & Hb0 & Hb1 & Hd2).
  assert (Hfields : forall d, (23 <= length d)%nat ->
            d !! 0%nat = Some x02 -> d !! 1%nat = Some x15 ->
            take 23 d =
              Layout.payload (slice d 2 18) (major (decoded d))
                (minor (decoded d)) (tx_power (decoded d))).
  { intros d Hlen H0 H1.
    do 23 (destruct d as [|? d]; [simpl in Hlen; lia|]).
    simpl in H0, H1. simplify_eq.
    unfold decoded, slice, Layout.payload. simpl drop. simpl take.
    cbn [major minor tx_power].
    by rewrite !u16_be_uint, i8_be_int. }
  rewrite (Hfields d1), (Hfields d2) by done.
  rewrite <- Hd1, <- Hd2.
  assert (Hid : Some (slice d1 2 18) = Some (slice d2 2 18)).
  { rewrite <- (bytes_of_str_format (slice d1 2 18)),
      <- (bytes_of_str_format (slice d2 2 18))
      by (rewrite length_slice; lia).
    change (Uuid.bytes_of_str (uuid (decoded d1))
            = Uuid.bytes_of_str (uuid (decoded d2))).
    by rewrite <- Hd1, <- Hd2. }
  by injection Hid as ->.
Qed.

End DecoderMore.


(** ** More on the producer *)

Section ProducerMore.

Context `{Collaborators}.

(** X4: an advertisement that carries no Apple manufacturer data, or whose
    Apple payload is shorter than 23 bytes or does not start with 02 15,
    leaves the queue as it is and records nothing; the callback returns. *)
Theorem bleak_callback_ignores_foreign (q : Queue.t TiltStatus)
    (manufacturer_data : gmap Z (list byte)) :
  manufacturer_data !! APPLE_MANUFACTURER_ID = None \/
  (exists raw_data,
     manufacturer_data !! APPLE_MANUFACTURER_ID = Some raw_data /\
     ((length raw_data < 23)%nat \/ take 2 raw_data <> [x02; x15])) ->
  bleak_callback q manufacturer_data = Ok (q, []).
Proof.
  intros [Hnone|(raw_data & Hsome & Hbad)]; unfold bleak_callback.
  - by rewrite Hnone.
  - by rewrite Hsome, (parse_unrecognized raw_data Hbad).
Qed.

Lemma uuid_to_colors_items_eq :
  uuid_to_colors = list_to_map uuid_to_colors_items.
Proof. reflexivity. Qed.

Lemma colors_to_uuid_eq :
  colors_to_uuid = list_to_map (prod_swap <$> uuid_to_colors_items).
Proof. vm_cast_no_check (eq_refl colors_to_uuid). Qed.

(** X5: [colors_to_uuid] is the exact inverse of [uuid_to_colors]: an
    identifier has a colour in the one exactly when the colour has this
    identifier in the other, so no two identifiers share a colour. *)
Theorem colors_to_uuid_inverse (u c : string) :
  uuid_to_colors !! u = Some c <-> colors_to_uuid !! c = Some u.
Proof.
  split; intros Hlook.
  - rewrite uuid_to_colors_items_eq in Hlook.
    apply elem_of_list_to_map_2 in Hlook.
    repeat (apply elem_of_cons in Hlook as [Hlook|Hlook];
            [injection Hlook as -> ->; by vm_compute|]).
    by apply elem_of_nil in Hlook.
  - rewrite colors_to_uuid_eq in Hlook.
    apply elem_of_list_to_map_2 in Hlook.
    repeat (apply elem_of_cons in Hlook as [Hlook|Hlook];
            [injection Hlook as -> ->; by vm_compute|]).
    by apply elem_of_nil in Hlook.
Qed.

Lemma accepted_app (ev1 ev2 : list event) :
  accepted (ev1 ++ ev2) = accepted ev1 ++ accepted ev2.
Proof. apply omap_app. Qed.

(** A producer call appends to the queue exactly the Readings that its
    trace shows as built with both flags true. *)
Lemma beacon_callback_accepted (q : Queue.t TiltStatus) (p : packet) :
  exists q' ev,
    _beacon_callback q p = Ok (q', ev) /\
    Queue.maxsize q' = Queue.maxsize q /\
    Queue.items q' = Queue.items q ++ accepted ev /\
    calls ev = [].
Proof.
  unfold _beacon_callback.
  destruct (Queue.full q) eqn:Hfull.
  { exists q, []. by rewrite app_nil_r. }
  destruct (uuid_to_colors !! uuid p) as [color|].
  2: { exists q, []. by rewrite app_nil_r. }
  case_bool_decide.
  2: { exists q, []. by rewrite app_nil_r. }
  fold (reading_of color p).
  destruct (temp_valid (reading_of color p)) eqn:Htemp; simpl.
  2: { do 2 eexists. split; [reflexivity|]. simpl.
       by rewrite Htemp, app_nil_r. }
  destruct (gravity_valid (reading_of color p)) eqn:Hgrav; simpl.
  2: { do 2 eexists. split; [reflexivity|]. simpl.
       by rewrite Htemp, Hgrav, app_nil_r. }
  rewrite put_nowait_not_full by exact Hfull. simpl.
  do 2 eexists. split; [reflexivity|]. simpl.
  by rewrite Htemp, Hgrav.
Qed.

End ProducerMore.


(** ** The simulator *)

Section SimulatorMore.

Context `{Collaborators}.

(** The lookup of the simulator's identifier does not fail. *)
Lemma fake_packet_eq (tx_power : Z) :
  fake_packet tx_power
    = Some (Packet "a495bb40-c5b1-4b44-b512-1370f02d74df" 70 1035 tx_power).
Proof.
  unfold fake_packet.
  replace (colors_to_uuid !! "simulated")
    with (Some "a495bb40-c5b1-4b44-b512-1370f02d74df"); [done|].
  vm_compute. reflexivity.
Qed.

(** Producer calls with one accepted packet fill the room that the queue
    has left and change nothing after that. *)
Lemma simulation_loop_fills (fuel : nat) (fake : packet) (color : string)
    (q : Queue.t TiltStatus) :
  uuid_to_colors !! uuid fake = Some color ->
  temp_valid (reading_of color fake) = true ->
  gravity_valid (reading_of color fake) = true ->
  0 < Queue.maxsize q ->
  Queue.qsize q <= Queue.maxsize q ->
  let n := Nat.min fuel (Z.to_nat (Queue.maxsize q - Queue.qsize q)) in
  simulation_loop fuel fake q
    = Ok (Queue.Make (Queue.maxsize q)
            (Queue.items q ++ replicate n (reading_of color fake)),
          replicate n (Built (reading_of color fake))).
Proof.
  intros Hcolor Ht Hg.
  revert q. induction fuel as [|fuel IH]; intros q Hpos Hle; cbv zeta.
  - simpl. rewrite app_nil_r. by destruct q.
  - simpl simulation_loop.
    destruct (Queue.full q) eqn:Hfull.
    + assert (Hroom : Z.to_nat (Queue.maxsize q - Queue.qsize q) = 0%nat).
      { unfold Queue.full in Hfull. apply andb_true_iff in Hfull as [_ Hf].
        apply bool_decide_eq_true in Hf. lia. }
      assert (Hcb : _beacon_callback q fake = Ok (q, [])).
      { unfold _beacon_callback. by rewrite Hfull. }
      rewrite Hcb. simpl mbind.
      rewrite (IH q Hpos Hle). simpl.
      by rewrite Hroom, !Nat.min_0_r.
    + assert (Hroom : (1 <= Z.to_nat (Queue.maxsize q - Queue.qsize q))%nat).
      { unfold Queue.full in Hfull. apply andb_false_iff in Hfull.
        destruct Hfull as [Hf|Hf]; apply bool_decide_eq_false in Hf; lia. }
      replace (Nat.min (S fuel)
                 (Z.to_nat (Queue.maxsize q - Queue.qsize q)))
        with (S (Nat.min fuel
                   (Z.to_nat (Queue.maxsize q - (Queue.qsize q + 1)))))
        by lia.
      rewrite (beacon_callback_accepts q fake color Hfull Hcolor Ht Hg).
      simpl mbind.
      set (q1 := Queue.Make (Queue.maxsize q)
                   (Queue.items q ++ [reading_of color fake])).
      assert (Hsize : Queue.qsize q1 = Queue.qsize q + 1).
      { unfold Queue.qsize, q1. simpl. rewrite length_app. simpl. lia. }
      rewrite (IH q1); [|done|rewrite Hsize; simpl; lia].
      rewrite Hsize. simpl. by rewrite <- app_assoc.
Qed.

(** X6: when the simulated Reading (colour "simulated", 70 F, minor 1035)
    has both flags true, [fuel] passes of the simulator without a consumer
    put it in the queue once per pass until the queue is full, and drop
    every later one: the queue ends with [min fuel room] more Readings,
    where [room] is the capacity left at the start, and the lookup of the
    simulated identifier does not fail. *)
Theorem simulation_fills_queue (fuel : nat) (tx_power : Z)
    (q : Queue.t TiltStatus) :
  let fake :=
    Packet "a495bb40-c5b1-4b44-b512-1370f02d74df" 70 1035 tx_power in
  let tilt_status := reading_of "simulated" fake in
  let n := Nat.min fuel (Z.to_nat (Queue.maxsize q - Queue.qsize q)) in
  temp_valid tilt_status = true ->
  gravity_valid tilt_status = true ->
  0 < Queue.maxsize q ->
  Queue.qsize q <= Queue.maxsize q ->
  _start_beacon_simulation fuel tx_power q
    = Some (Ok (Queue.Make (Queue.maxsize q)
                  (Queue.items q ++ replicate n tilt_status),
                replicate n (Built tilt_status))).
Proof.
  intros fake tilt_status n Ht Hg Hpos Hle.
  unfold _start_beacon_simulation. rewrite fake_packet_eq. simpl.
  f_equal.
  apply (simulation_loop_fills fuel fake "simulated" q); try assumption.
  by vm_compute.
Qed.

End SimulatorMore.

(** ** Order of dispatch *)

Section Fifo.

Context `{Collaborators}.
Variable enabled_providers : list Provider.
Variable console_log : bool.
Variable timeout_seconds : Z.
Variable start_time : Z.

(** A cycle builds no Reading. *)
Lemma handle_accepted (q q' : Queue.t TiltStatus) (w w' : World)
    (ev : list event) :
  _handle_pitch_queue enabled_providers console_log q w = Ok (q', w', ev) ->
  accepted ev = [].
Proof.
  assert (Hone : forall ts p w0,
            accepted (update_provider console_log ts p w0).2 = []).
  { intros ts p w0. unfold update_provider.
    destruct (update p ts w0) as [w1 [u|e]];
      [by destruct console_log|by destruct e]. }
  assert (Hup : forall ts ps w0,
            accepted (update_providers console_log ts ps w0).2 = []).
  { intros ts ps. induction ps as [|p ps IH]; intros w0; simpl; [done|].
    specialize (Hone ts p w0).
    destruct (update_provider console_log ts p w0) as [w1 ev1].
    specialize (IH w1).
    destruct (update_providers console_log ts ps w1) as [w2 ev2].
    simpl in *. by rewrite accepted_app, Hone, IH. }
  destruct (Queue.items q) as [|ts rest] eqn:Hitems.
  - unfold _handle_pitch_queue, Queue.get.
    rewrite (full_empty q Hitems), Hitems.
    destruct (bool_decide (0 < queue_empty_sleep_seconds config)
              && Queue.empty q); by intros [= <- <- <-].
  - rewrite (handle_reading _ _ _ _ _ _ Hitems). intros [= <- <- <-].
    rewrite !accepted_app, Hup.
    by destruct (Queue.full q), console_log.
Qed.

(** What one step adds to the trace, and what it does to the queue: the
    Readings accepted in the step go to the end, the Readings removed in
    it were at the front and went to every provider. *)
Lemma step_fifo (a : action) (s : System) :
  exists s' ev rem,
    step enabled_providers console_log timeout_seconds start_time a s
      = Ok s' /\
    trace s' = trace s ++ ev /\
    Queue.items (pitch_q s) ++ accepted ev = rem ++ Queue.items (pitch_q s') /\
    calls ev = flat_map (fan_out enabled_providers) rem.
Proof.
  assert (Hproducer : forall p,
    exists s' ev rem,
      ('(q, ev) ← _beacon_callback (pitch_q s) p;
       Ok {| pitch_q := q; world := world s; returned := returned s;
             trace := trace s ++ ev |}) = Ok s' /\
      trace s' = trace s ++ ev /\
      Queue.items (pitch_q s) ++ accepted ev
        = rem ++ Queue.items (pitch_q s') /\
      calls ev = flat_map (fan_out enabled_providers) rem).
  { intros p.
    destruct (beacon_callback_accepted (pitch_q s) p)
      as (q' & ev & -> & _ & Hitems & Hcalls).
    eexists _, ev, []. simpl. split; [reflexivity|]. split; [reflexivity|].
    split; [by symmetry|exact Hcalls]. }
  destruct a as [manufacturer_data|p|]; simpl.
  - destruct (bleak_callback_cases (pitch_q s) manufacturer_data)
      as [->|(raw_data & p & _ & _ & ->)]; [|apply Hproducer].
    eexists _, [], []. simpl. by rewrite !app_nil_r.
  - apply Hproducer.
  - destruct (returned s).
    { exists s, [], []. simpl. by rewrite !app_nil_r. }
    destruct (consumer_pass_cycle enabled_providers console_log
                timeout_seconds start_time (pitch_q s) (world s))
      as (q' & w' & ev & Hh & ->).
    pose proof (handle_accepted _ _ _ _ _ Hh) as Hacc.
    destruct (Queue.items (pitch_q s)) as [|ts rest] eqn:Hitems.
    + destruct (handle_nothing enabled_providers console_log _ (world s)
                  Hitems) as (w'' & ev'' & Hh' & Hcalls & _).
      rewrite Hh in Hh'. injection Hh' as -> -> ->.
      eexists _, ev'', []. split; [reflexivity|]. simpl.
      by rewrite Hacc, Hitems.
    + destruct (cycle_with_reading console_log enabled_providers
                  (pitch_q s) (world s) ts rest Hitems)
        as (w'' & ev'' & Hh' & Hcalls & _).
      rewrite Hh in Hh'. injection Hh' as -> -> ->.
      eexists _, ev'', [ts]. split; [reflexivity|]. simpl.
      by rewrite Hacc, Hcalls, !app_nil_r.
Qed.

(** X7: in every run, the Readings that the consumer removed followed by
    those still in the queue are the Readings queued at the start followed
    by those accepted during the run, in the order of acceptance; and the
    calls of [update] in the run are the removed Readings, one after the
    other, each handed to every provider: no accepted Reading is lost,
    duplicated or overtaken. *)
Theorem readings_dispatched_in_acceptance_order (schedule : list action)
    (s : System) :
  exists s' ev rem,
    run enabled_providers console_log timeout_seconds start_time schedule s
      = Ok s' /\
    trace s' = trace s ++ ev /\
    Queue.items (pitch_q s) ++ accepted ev = rem ++ Queue.items (pitch_q s') /\
    calls ev = flat_map (fan_out enabled_providers) rem.
Proof.
  revert s. induction schedule as [|a schedule IH]; intros s.
  - exists s, [], []. simpl. by rewrite !app_nil_r.
  - destruct (step_fifo a s) as (s1 & ev1 & rem1 & Hstep & Htr1 & Hq1 & Hc1).
    destruct (IH s1) as (s' & ev2 & rem2 & Hrun & Htr2 & Hq2 & Hc2).
    exists s', (ev1 ++ ev2), (rem1 ++ rem2).
    simpl. rewrite Hstep. simpl.
    split; [exact Hrun|].
    split; [by rewrite Htr2, Htr1, app_assoc|].
    split.
    + by rewrite accepted_app, app_assoc, Hq1, <- !app_assoc, Hq2.
    + by rewrite calls_app, flat_map_app, Hc1, Hc2.
Qed.

End Fifo.


(** ** Start-up *)

Section StartupMore.

Context `{Collaborators}.

Lemma get_webhook_providers_map
    (WebhookCloudProvider : string -> CloudProvider)
    (webhook_urls : list string) :
  _get_webhook_providers WebhookCloudProvider webhook_urls
    = map WebhookCloudProvider webhook_urls.
Proof.
  unfold _get_webhook_providers.
  assert (Hacc : forall acc : list CloudProvider,
            foldl (fun webhook_providers url =>
                     webhook_providers ++ [WebhookCloudProvider url])
                  acc webhook_urls
            = acc ++ map WebhookCloudProvider webhook_urls).
  { induction webhook_urls as [|url urls IH]; intros acc; simpl.
    - by rewrite app_nil_r.
    - rewrite IH. by rewrite <- app_assoc. }
  apply Hacc.
Qed.

(** The list that [pitch_main] iterates over. *)
Lemma providers_after_eq (providers : option (list CloudProvider))
    (normal_providers : list CloudProvider)
    (WebhookCloudProvider : string -> CloudProvider)
    (webhook_urls : list string) (w : World) :
  providers_after
    (pitch_main_startup providers normal_providers WebhookCloudProvider
       webhook_urls w)
  = default normal_providers providers
    ++ map WebhookCloudProvider webhook_urls.
Proof.
  unfold pitch_main_startup. rewrite get_webhook_providers_map.
  destruct (start_providers _ _ _) as [[w' ev] res] eqn:Hstart. simpl.
  destruct (map WebhookCloudProvider webhook_urls), providers; simpl;
    by rewrite ?app_nil_r.
Qed.

(** When every [start()] returns and [enabled()] of a provider of the
    list answers [is_enabled] whenever it is asked, the loop starts the
    enabled providers of the list, each once and in order, and returns
    them after those it was given. *)
Lemma start_providers_filter (is_enabled : CloudProvider -> bool)
    (providers acc : list CloudProvider) (w : World) :
  (forall provider w1, provider ∈ providers ->
     enabled provider w1 = is_enabled provider) ->
  (forall provider w1, provider ∈ providers ->
     exists message, (start provider w1).2 = Ok message) ->
  exists w' ev,
    start_providers providers acc w
      = (w', ev,
         Ok (acc ++ filter (fun provider => is_enabled provider = true)
                           providers)) /\
    started ev = filter (fun provider => is_enabled provider = true) providers.
Proof.
  revert acc w.
  induction providers as [|p providers IH]; intros acc w Hen Hstart.
  - exists w, []. simpl. by rewrite app_nil_r.
  - simpl start_providers. rewrite filter_cons, Hen by (by left).
    destruct (is_enabled p) eqn:Hp.
    + rewrite decide_True by done.
      destruct (Hstart p w) as [message Hmsg]; [by left|].
      destruct (start p w) as [w1 r]. simpl in Hmsg. subst r.
      destruct (IH (acc ++ [p]) w1) as (w' & ev & Hrec & Hst).
      { intros q w2 Hq. apply Hen. by right. }
      { intros q w2 Hq. apply Hstart. by right. }
      rewrite Hrec.
      eexists _, _. split; [by rewrite <- app_assoc|].
      simpl. by rewrite Hst.
    + rewrite decide_False by done.
      apply IH.
      * intros q w2 Hq. apply Hen. by right.
      * intros q w2 Hq. apply Hstart. by right.
Qed.

(** The loop over a list in two parts. *)
Lemma start_providers_app (l1 l2 acc acc1 : list CloudProvider)
    (w w1 : World) (ev1 : list startup_event) :
  start_providers l1 acc w = (w1, ev1, Ok acc1) ->
  start_providers (l1 ++ l2) acc w =
    let '(w2, ev2, res) := start_providers l2 acc1 w1 in
    (w2, ev1 ++ ev2, res).
Proof.
  revert acc w ev1. induction l1 as [|p l1 IH]; intros acc w ev1; simpl.
  - intros [= <- <- <-]. by destruct (start_providers l2 acc w) as [[? ?] ?].
  - destruct (enabled p w); [|apply IH].
    destruct (start p w) as [w0 [message|e]]; [|done].
    destruct (start_providers l1 (acc ++ [p]) w0) as [[w' ev'] res] eqn:Hrec.
    intros [= <- <- ->].
    rewrite (IH _ _ _ Hrec).
    by destruct (start_providers l2 acc1 w') as [[? ?] ?].
Qed.

(** Whatever the providers do, the providers returned are those given
    followed by those started, and only providers of the list that answered
    [enabled()] with true were started. *)
Lemma start_providers_started (providers acc : list CloudProvider)
    (w : World) :
  let '(w', ev, res) := start_providers providers acc w in
  (forall l, res = Ok l -> l = acc ++ started ev) /\
  (forall provider, provider ∈ started ev ->
     provider ∈ providers /\ exists w0, enabled provider w0 = true).
Proof.
  revert acc w. induction providers as [|p providers IH]; intros acc w; simpl.
  - split.
    + intros l [= <-]. by rewrite app_nil_r.
    + intros provider Hin. by apply elem_of_nil in Hin.
  - destruct (enabled p w) eqn:Hen.
    + destruct (start p w) as [w1 [message|e]].
      * specialize (IH (acc ++ [p]) w1).
        destruct (start_providers providers (acc ++ [p]) w1)
          as [[w' ev] res].
        destruct IH as [Hres Hin]. split.
        -- intros l Hl. rewrite (Hres l Hl). simpl. by rewrite <- app_assoc.
        -- simpl. intros provider [->|Hp]%elem_of_cons.
           ++ split; [by left|by exists w].
           ++ destruct (Hin provider Hp). split; [by right|done].
      * split; [done|].
        simpl. intros provider [->|Hp]%elem_of_cons;
          [|by apply elem_of_nil in Hp].
        split; [by left|by exists w].
    + specialize (IH acc w).
      destruct (start_providers providers acc w) as [[w' ev] res].
      destruct IH as [Hres Hin]. split; [done|].
      intros provider Hp. destruct (Hin provider Hp). split; [by right|done].
Qed.

(** X8: when [enabled()] of every provider of the list answers the same
    at every moment and every [start()] returns, [pitch_main] calls [start()] on
    exactly the enabled providers among those it was given (or
    [normal_providers]) followed by the webhook providers, each once and in
    this order, and these are the providers it hands to the consumer. *)
Theorem startup_starts_enabled_in_order
    (is_enabled : CloudProvider -> bool)
    (providers : option (list CloudProvider))
    (normal_providers : list CloudProvider)
    (WebhookCloudProvider : string -> CloudProvider)
    (webhook_urls : list string) (w : World) :
  let all := default normal_providers providers
             ++ map WebhookCloudProvider webhook_urls in
  let st := pitch_main_startup providers normal_providers
              WebhookCloudProvider webhook_urls w in
  (forall provider w1, provider ∈ all ->
     enabled provider w1 = is_enabled provider) ->
  (forall provider w1, provider ∈ all ->
     exists message, (start provider w1).2 = Ok message) ->
  enabled_providers_or_error st
    = Ok (filter (fun provider => is_enabled provider = true) all) /\
  started (startup_trace st)
    = filter (fun provider => is_enabled provider = true) all.
Proof.
  intros all st Hen Hstart.
  pose proof (providers_after_eq providers normal_providers
                WebhookCloudProvider webhook_urls w) as Hall.
  fold st all in Hall. subst st.
  unfold pitch_main_startup in *.
  destruct (start_providers _ [] w) as [[w' ev] res] eqn:Hrun.
  simpl in Hall. rewrite Hall in Hrun.
  destruct (start_providers_filter is_enabled all [] w Hen Hstart)
    as (w'' & ev'' & Hrun' & Hst).
  rewrite Hrun in Hrun'. injection Hrun' as -> -> ->.
  simpl. by split.
Qed.

(** X9: an exception of the [start()] of an enabled provider ends
    [pitch_main] with this exception: the providers after it in the list
    are not started, enabled or not, and no consumer is started. *)
Theorem startup_aborts_on_failing_start
    (is_enabled : CloudProvider -> bool)
    (providers : option (list CloudProvider))
    (normal_providers before after : list CloudProvider)
    (failing : CloudProvider) (e : exn)
    (WebhookCloudProvider : string -> CloudProvider)
    (webhook_urls : list string) (w : World) :
  let st := pitch_main_startup providers normal_providers
              WebhookCloudProvider webhook_urls w in
  default normal_providers providers
    ++ map WebhookCloudProvider webhook_urls = before ++ failing :: after ->
  (forall provider w1, provider ∈ before ->
     enabled provider w1 = is_enabled provider) ->
  (forall provider w1, provider ∈ before ->
     exists message, (start provider w1).2 = Ok message) ->
  (forall w1, enabled failing w1 = true) ->
  (forall w1, (start failing w1).2 = Raise e) ->
  enabled_providers_or_error st = Raise e /\
  started (startup_trace st)
    = filter (fun provider => is_enabled provider = true) before ++ [failing].
Proof.
  intros st Hsplit Hen Hstart Hfailing Hraise.
  pose proof (providers_after_eq providers normal_providers
                WebhookCloudProvider webhook_urls w) as Hall.
  fold st in Hall. subst st.
  unfold pitch_main_startup in *.
  destruct (start_providers _ [] w) as [[w' ev] res] eqn:Hrun.
  simpl in Hall. rewrite Hall, Hsplit in Hrun.
  destruct (start_providers_filter is_enabled before [] w Hen Hstart)
    as (w1 & ev1 & Hrun1 & Hst1).
  rewrite (start_providers_app _ _ _ _ _ _ _ Hrun1) in Hrun.
  simpl in Hrun. rewrite Hfailing in Hrun.
  specialize (Hraise w1).
  destruct (start failing w1) as [w2 r]. simpl in Hraise. subst r.
  injection Hrun as <- <- <-. simpl.
  split; [reflexivity|].
  unfold started in *. by rewrite omap_app, Hst1.
Qed.

(** The list objects after [pitch_main]: the object that [providers]
    refers to holds the webhook providers too, the other one is as it
    was; the loop runs over the extended object. *)
Lemma pitch_main_objects_eq (providers : option list_ref) (objects : lists)
    (WebhookCloudProvider : string -> CloudProvider)
    (webhook_urls : list string) (w : World) :
  let r := default NormalProviders providers in
  let webhooks := map WebhookCloudProvider webhook_urls in
  pitch_main_objects providers objects WebhookCloudProvider webhook_urls w
  = let '(w', ev, res) := start_providers (deref objects r ++ webhooks) [] w in
    (extend objects r webhooks, w', Banner :: Starting :: ev, res).
Proof.
  intros r webhooks. unfold pitch_main_objects.
  rewrite get_webhook_providers_map. fold webhooks.
  replace (match providers with Some r0 => r0 | None => NormalProviders end)
    with r by (by destruct providers).
  assert (Hext : deref (extend objects r webhooks) r
                 = deref objects r ++ webhooks) by (by destruct r).
  destruct webhooks as [|p webhooks'] eqn:Hw.
  - rewrite app_nil_r.
    assert (Hsame : extend objects r [] = objects).
    { destruct objects, r; simpl; by rewrite app_nil_r. }
    by rewrite Hsame.
  - by rewrite Hext.
Qed.

(** X10: [providers.extend] grows the list object that [providers] refers
    to.  With [providers=None], and when the caller passes the
    module-level [normal_providers] itself, this is [normal_providers]:
    after the call it holds the webhook providers too, and a second call
    adds them once more, so that each webhook is in the list twice and the
    second call runs its loop over both copies.  When the caller passes a
    list object of its own, that object is extended and
    [normal_providers] is left as it was; in this case and for [None] the
    call is what [pitch_main_startup] describes. *)
Theorem startup_extends_normal_providers (objects : lists)
    (WebhookCloudProvider : string -> CloudProvider)
    (webhook_urls : list string) (w w' : World) :
  let webhooks := map WebhookCloudProvider webhook_urls in
  let call := fun providers objects w =>
    pitch_main_objects providers objects WebhookCloudProvider webhook_urls w in
  (call None objects w).1.1.1
  = {| normal_providers_object := normal_providers_object objects ++ webhooks;
       caller_object := caller_object objects |} /\
  (call (Some NormalProviders) objects w).1.1.1
  = {| normal_providers_object := normal_providers_object objects ++ webhooks;
       caller_object := caller_object objects |} /\
  (call (Some CallerList) objects w).1.1.1
  = {| normal_providers_object := normal_providers_object objects;
       caller_object := caller_object objects ++ webhooks |} /\
  (let first := call None objects w in
   let second := call None first.1.1.1 w' in
   normal_providers_object second.1.1.1
   = normal_providers_object objects ++ webhooks ++ webhooks /\
   (second.1.1.2, second.1.2, second.2)
   = let '(w2, ev, res) :=
       start_providers
         (normal_providers_object objects ++ webhooks ++ webhooks) [] w' in
     (w2, Banner :: Starting :: ev, res)) /\
  (forall providers : option (list CloudProvider),
     let st := pitch_main_startup providers (normal_providers_object objects)
                 WebhookCloudProvider webhook_urls w in
     let r := match providers with
              | None => NormalProviders
              | Some _ => CallerList
              end in
     call (Some r)
       {| normal_providers_object := normal_providers_object objects;
          caller_object := default [] providers |} w
     = ({| normal_providers_object := normal_providers_after st;
           caller_object :=
             match providers with
             | None => []
             | Some _ => providers_after st
             end |},
        world_after st, startup_trace st, enabled_providers_or_error st)).
Proof.
  intros webhooks call. subst call. cbv beta.
  split; [|split; [|split; [|split]]].
  - rewrite pitch_main_objects_eq. simpl. fold webhooks.
    by destruct (start_providers _ [] w) as [[? ?] ?].
  - rewrite pitch_main_objects_eq. simpl. fold webhooks.
    by destruct (start_providers _ [] w) as [[? ?] ?].
  - rewrite pitch_main_objects_eq. simpl. fold webhooks.
    by destruct (start_providers _ [] w) as [[? ?] ?].
  - cbv zeta. rewrite !pitch_main_objects_eq. simpl. fold webhooks.
    destruct (start_providers _ [] w) as [[w1 ev1] res1]. simpl.
    rewrite <- app_assoc.
    by destruct (start_providers _ [] w') as [[w2 ev2] res2].
  - intros providers st r.
    rewrite pitch_main_objects_eq. fold webhooks.
    pose proof (providers_after_eq providers (normal_providers_object objects)
                  WebhookCloudProvider webhook_urls w) as Hall.
    fold st webhooks in Hall. subst st.
    unfold pitch_main_startup in *. rewrite get_webhook_providers_map in *.
    fold webhooks in Hall |- *.
    destruct providers as [l|]; subst r; simpl in *.
    + destruct webhooks as [|p webhooks'].
      * rewrite app_nil_r.
        by destruct (start_providers l [] w) as [[? ?] ?].
      * by destruct (start_providers _ [] w) as [[? ?] ?].
    + destruct webhooks as [|p webhooks'].
      * rewrite app_nil_r.
        by destruct (start_providers _ [] w) as [[? ?] ?].
      * by destruct (start_providers _ [] w) as [[? ?] ?].
Qed.

(** X11: whatever [enabled()] and [start()] do, if [pitch_main] gets as
    far as the consumer, then in every run every call of [update] goes to
    a provider of the list that answered [enabled()] with true and whose
    [start()] was called before: a provider that is not enabled is never
    updated. *)
Theorem only_started_providers_are_updated
    (providers : option (list CloudProvider))
    (normal_providers selected : list CloudProvider)
    (WebhookCloudProvider : string -> CloudProvider)
    (webhook_urls : list string) (w : World)
    (console_log : bool) (timeout_seconds start_time : Z)
    (schedule : list action) (s : System) :
  let st := pitch_main_startup providers normal_providers
              WebhookCloudProvider webhook_urls w in
  enabled_providers_or_error st = Ok selected ->
  trace s = [] ->
  exists s',
    run (sink <$> selected) console_log timeout_seconds start_time schedule s
      = Ok s' /\
    forall provider tilt_status,
      (provider, tilt_status) ∈ calls (trace s') ->
      exists cloud_provider,
        provider = sink cloud_provider /\
        cloud_provider ∈ started (startup_trace st) /\
        cloud_provider ∈ providers_after st /\
        exists w0, enabled cloud_provider w0 = true.
Proof.
  intros st Hsel Htrace.
  destruct (run_effect (sink <$> selected) console_log timeout_seconds
              start_time schedule s)
    as (s' & enq & rem & Hrun & _ & _ & Hcalls & _).
  exists s'. split; [exact Hrun|].
  intros provider tilt_status Hin.
  rewrite Hcalls, Htrace in Hin. simpl in Hin.
  apply list_elem_of_In, in_flat_map in Hin as (ts & _ & Hin).
  apply list_elem_of_In in Hin. unfold fan_out in Hin.
  apply list_elem_of_fmap in Hin as (p & [= -> ->] & Hp).
  apply list_elem_of_fmap in Hp as (cloud_provider & -> & Hcp).
  exists cloud_provider. split; [reflexivity|].
  subst st. unfold pitch_main_startup in *.
  pose proof (start_providers_started
                (match _get_webhook_providers WebhookCloudProvider
                         webhook_urls with
                 | [] => default normal_providers providers
                 | _ => default normal_providers providers
                        ++ _get_webhook_providers WebhookCloudProvider
                             webhook_urls
                 end) [] w) as Hstarted.
  destruct providers as [l|]; simpl in *;
    destruct (start_providers _ [] w) as [[w' ev] res]; simpl in *;
    destruct Hstarted as [Hres Hmem];
    rewrite (Hres _ Hsel) in Hcp; simpl in Hcp;
    (split; [exact Hcp|]); by apply Hmem.
Qed.

End StartupMore.


(** ** The live scanner *)

Section ScannerMore.

Context `{Collaborators}.
Variable scanner_start : World -> World * result unit.
Variable scanner_stop : World -> World.
Variable cancelled : World -> bool.

(** With a time budget and a clock that a sleep of one second advances by
    at least one, the loop is left within as many passes as the budget has
    seconds left, plus one. *)
Lemma scan_loop_terminates (fuel : nat) (timeout_seconds start_time : Z)
    (w : World) :
  0 < timeout_seconds ->
  (forall w0, time_time w0 + 1 <= time_time (time_sleep 1 w0)) ->
  (1 <= fuel)%nat ->
  timeout_seconds - (time_time w - start_time) < Z.of_nat fuel ->
  exists w', scan_loop cancelled fuel timeout_seconds start_time w = Some w'.
Proof.
  intros Hbudget Hclock. revert w.
  induction fuel as [|fuel IH]; intros w Hfuel Hleft; [lia|].
  simpl. destruct (cancelled w); [by eauto|].
  rewrite bool_decide_true by done. simpl.
  case_bool_decide as Hover; [by eauto|].
  specialize (Hclock w).
  apply IH; lia.
Qed.

(** Without a time budget and without cancellation the loop is never
    left. *)
Lemma scan_loop_forever (fuel : nat) (timeout_seconds start_time : Z)
    (w : World) :
  timeout_seconds <= 0 ->
  (forall w0, cancelled w0 = false) ->
  scan_loop cancelled fuel timeout_seconds start_time w = None.
Proof.
  intros Hbudget Hcancel. revert w.
  induction fuel as [|fuel IH]; intros w; [done|].
  simpl. rewrite Hcancel.
  rewrite bool_decide_false by lia. simpl. apply IH.
Qed.

(** X12: when [scanner.start()] returns, the time budget is positive and
    every sleep of one second advances the clock by at least one second,
    [_run_bleak_scanner] returns within [timeout_seconds + 1] passes of its
    loop, cancelled or not, and it has stopped the scanner, once, after
    having started it. *)
Theorem scanner_returns_within_budget (fuel : nat) (timeout_seconds : Z)
    (w : World) :
  0 < timeout_seconds ->
  (forall w0, time_time w0 + 1 <= time_time (time_sleep 1 w0)) ->
  (exists u, (scanner_start w).2 = Ok u) ->
  timeout_seconds < Z.of_nat fuel ->
  exists w2,
    scan_loop cancelled fuel timeout_seconds
      (time_time (scanner_start w).1) (scanner_start w).1 = Some w2 /\
    _run_bleak_scanner scanner_start scanner_stop cancelled fuel
      timeout_seconds w
    = Some (scanner_stop w2,
            [ScannerStartedLine; ScannerStart; ReadyLine;
             ScannerStop; ScannerStoppedLine],
            Ok ()).
Proof.
  intros Hbudget Hclock [u Hstart] Hfuel.
  unfold _run_bleak_scanner.
  destruct (scanner_start w) as [w1 r]. simpl in *. subst r.
  destruct (scan_loop_terminates fuel timeout_seconds (time_time w1) w1)
    as [w2 Hloop]; [done|done|lia|lia|].
  exists w2. by rewrite Hloop.
Qed.

(** X13: with [timeout_seconds] zero or negative and no cancellation,
    [_run_bleak_scanner] never returns once the scanner has started,
    however many passes its loop makes: the scanner is never stopped. *)
Theorem scanner_runs_forever_without_budget (fuel : nat)
    (timeout_seconds : Z) (w : World) :
  timeout_seconds <= 0 ->
  (forall w0, cancelled w0 = false) ->
  (exists u, (scanner_start w).2 = Ok u) ->
  _run_bleak_scanner scanner_start scanner_stop cancelled fuel
    timeout_seconds w = None.
Proof.
  intros Hbudget Hcancel [u Hstart].
  unfold _run_bleak_scanner.
  destruct (scanner_start w) as [w1 r]. simpl in *. subst r.
  by rewrite scan_loop_forever.
Qed.

End ScannerMore.


(** ** The InfluxDB 2 provider *)

Section InfluxMore.

Context `{Collaborators}.
Context {Value Server : Type}.
Variable color name : TiltStatus -> string.
Variable temp_fahrenheit temp_celsius gravity degrees_plato
         alcohol_by_volume apparent_attenuation : TiltStatus -> Value.
Variable write :
  string -> list (InfluxDb2.Point Value) -> Server -> Server * result unit.
Variable sleep : Z -> Server -> Server * bool.
Variable cfg : InfluxDb2.Config.

Local Abbreviation get_point :=
  (InfluxDb2.get_point color name temp_fahrenheit temp_celsius gravity
     degrees_plato alcohol_by_volume apparent_attenuation).
Local Abbreviation write_attempts := (InfluxDb2.write_attempts write sleep cfg).
Local Abbreviation influx_update :=
  (InfluxDb2.update color name temp_fahrenheit temp_celsius gravity
     degrees_plato alcohol_by_volume apparent_attenuation write sleep cfg).
Local Abbreviation influx_updates :=
  (InfluxDb2.updates color name temp_fahrenheit temp_celsius gravity
     degrees_plato alcohol_by_volume apparent_attenuation write sleep cfg).
Local Abbreviation max_retries :=
  (default 3 (InfluxDb2.influxdb2_retries cfg)).
Local Abbreviation backoff_seconds :=
  (default 2 (InfluxDb2.influxdb2_retry_backoff_seconds cfg)).














(** X17: with a server that accepts every write, a batch size [b] of at
    least one and at least one allowed attempt, the provider sends exactly
    [b] points in every write and the batch never reaches [b]: after [n]
    updates on a batch of [m < b] points it holds [(m + n) mod b]
    points. *)
Theorem influx_reliable_server_batches (readings : list TiltStatus)
    (batch : list (InfluxDb2.Point Value)) (srv : Server) :
  (forall bucket record srv0, (write bucket record srv0).2 = Ok ()) ->
  1 <= InfluxDb2.influxdb_batch_size cfg ->
  1 <= max_retries ->
  Z.of_nat (length batch) < InfluxDb2.influxdb_batch_size cfg ->
  let '(batch', srv', ev) := influx_updates readings batch srv in
  Z.of_nat (length batch')
    = (Z.of_nat (length batch) + Z.of_nat (length readings))
      mod InfluxDb2.influxdb_batch_size cfg /\
  Forall (fun record =>
            Z.of_nat (length record) = InfluxDb2.influxdb_batch_size cfg)
         (InfluxDb2.writes ev).
Proof.
  intros Hwrite Hsize Hretries.
  set (b := InfluxDb2.influxdb_batch_size cfg) in *.
  revert batch srv.
  induction readings as [|ts readings IH]; intros batch srv Hlen; simpl.
  - split; [|constructor].
    rewrite Z.add_0_r, Z.mod_small; lia.
  - unfold InfluxDb2.update. fold b.
    set (batch1 := batch ++ [get_point ts]).
    assert (Hlen1 : Z.of_nat (length batch1) = Z.of_nat (length batch) + 1).
    { unfold batch1. rewrite length_app. simpl. lia. }
    destruct (Z.ltb_spec (Z.of_nat (length batch1)) b) as [Hbelow|Hreached].
    + specialize (IH batch1 srv Hbelow).
      destruct (influx_updates readings batch1 srv) as [[batch' srv'] ev].
      destruct IH as [Hmod Hall]. split; [|exact Hall].
      rewrite Hmod, Hlen1. f_equal. lia.
    + destruct (Z.to_nat max_retries) as [|remaining] eqn:Hn; [lia|].
      simpl.
      specialize (Hwrite (InfluxDb2.influxdb2_bucket cfg) batch1 srv).
      destruct (write (InfluxDb2.influxdb2_bucket cfg) batch1 srv)
        as [srv1 r]. simpl in Hwrite. subst r.
      specialize (IH [] srv1 ltac:(simpl; lia)).
      destruct (influx_updates readings [] srv1) as [[batch' srv'] ev].
      destruct IH as [Hmod Hall]. split.
      * rewrite Hmod. simpl length.
        replace (Z.of_nat (length batch) + Z.of_nat (S (length readings)))
          with (Z.of_nat (length readings) + 1 * b) by lia.
        by rewrite Z.mod_add by lia.
      * simpl. constructor; [lia|exact Hall].
Qed.

(** X18: with [influxdb2_retries] zero or negative the provider never
    writes: every update only puts its point in the batch, which grows
    without bound, and all that is printed is that data is being sent. *)
Theorem influx_no_retries_never_writes (readings : list TiltStatus)
    (batch : list (InfluxDb2.Point Value)) (srv : Server) :
  max_retries <= 0 ->
  let '(batch', srv', ev) := influx_updates readings batch srv in
  batch' = batch ++ map get_point readings /\
  srv' = srv /\
  InfluxDb2.writes ev = [] /\
  InfluxDb2.delivered ev = [] /\
  Forall (fun e => e = InfluxDb2.SkippingLine \/ e = InfluxDb2.SendingLine)
         ev.
Proof.
  intros Hretries. revert batch.
  induction readings as [|ts readings IH]; intros batch; simpl.
  - rewrite app_nil_r. by repeat split.
  - unfold InfluxDb2.update.
    replace (Z.to_nat max_retries) with 0%nat by lia. simpl.
    specialize (IH (batch ++ [get_point ts])).
    destruct (_ <? _); simpl;
      destruct (influx_updates readings (batch ++ [get_point ts]) srv)
        as [[batch' srv'] ev];
      destruct IH as (-> & -> & Hw & Hd & Hall);
      (split; [by rewrite <- app_assoc|]);
      (split; [reflexivity|]);
      (split; [exact Hw|]);
      (split; [exact Hd|]);
      constructor; auto.
Qed.

End InfluxMore.


(** ** The consumer on its own *)

Section ConsumerMore.

Context `{Collaborators}.

(** X19: without a time budget and without the producer,
    [_run_queue_consumer] empties a queue of [n] Readings in [n] passes:
    it hands them, oldest first, to every enabled provider, leaves the
    queue empty with its capacity unchanged, and has not returned. *)
Theorem consumer_drains_queue (enabled_providers : list Provider)
    (console_log : bool) (timeout_seconds : Z)
    (q : Queue.t TiltStatus) (w : World) :
  timeout_seconds <= 0 ->
  let '(q', w', ev, ret) :=
    _run_queue_consumer (length (Queue.items q)) enabled_providers
      console_log timeout_seconds q w in
  q' = Queue.Make (Queue.maxsize q) [] /\
  ret = false /\
  calls ev = flat_map (fan_out enabled_providers) (Queue.items q).
Proof.
  intros Hbudget. unfold _run_queue_consumer.
  generalize (time_time w) as start_time. intros start_time.
  destruct q as [maxsize items]. simpl.
  revert w. induction items as [|ts rest IH]; intros w; simpl; [done|].
  unfold consumer_pass.
  rewrite (handle_reading enabled_providers console_log
             (Queue.Make maxsize (ts :: rest)) w ts rest eq_refl).
  rewrite bool_decide_false by lia. simpl.
  specialize (IH (update_providers console_log ts enabled_providers w).1).
  destruct (consumer_loop enabled_providers console_log timeout_seconds
              start_time (length rest) (Queue.Make maxsize rest)
              (update_providers console_log ts enabled_providers w).1)
    as [[[q2 w2] ev2] ret2].
  destruct IH as (-> & -> & Hcalls).
  split; [reflexivity|]. split; [reflexivity|].
  destruct (update_providers_calls console_log ts enabled_providers w)
    as [Hc _].
  rewrite !calls_app, Hc, Hcalls.
  replace (calls (if Queue.full (Queue.Make maxsize (ts :: rest))
                  then [QueueIsFull
                          (Queue.qsize (Queue.Make maxsize (ts :: rest)))]
                  else []))
    with (@nil (Provider * TiltStatus)) by (by destruct (Queue.full _)).
  replace (calls (if console_log then [Json ts] else []))
    with (@nil (Provider * TiltStatus)) by (by destruct console_log).
  by rewrite app_nil_r.
Qed.

End ConsumerMore.


(** ** The further properties on concrete inputs *)

Section MoreExamples.

Import DemoStartup.

Lemma parse_fields_in_range_witness :
  parse Demo.green_payload = Ok (Some Demo.green_packet) /\
  -128 <= tx_power Demo.green_packet < 128 /\
  String.length (uuid Demo.green_packet) = 36%nat.
Proof.
  assert (Hparse : parse Demo.green_payload = Ok (Some Demo.green_packet))
    by (by vm_compute).
  split; [exact Hparse|].
  destruct (parse_fields_in_range Demo.green_payload Demo.green_packet Hparse)
    as (_ & _ & Htx & Hlen & _).
  by split.
Defined.

Lemma parse_reencode_witness :
  Layout.payload Demo.green_id 70 1035 (-72)
    = take 23 (Demo.green_payload ++ [xff; x00]).
Proof.
  assert (Hparse : parse (Demo.green_payload ++ [xff; x00])
                   = Ok (Some Demo.green_packet)) by (by vm_compute).
  destruct (parse_reencode (Demo.green_payload ++ [xff; x00])
              Demo.green_packet Hparse) as [_ Hpayload].
  exact Hpayload.
Defined.

Lemma parse_injective_witness :
  take 23 (Demo.green_payload ++ [x00])
    = take 23 (Demo.green_payload ++ [xff; xff]).
Proof.
  apply (parse_injective (Demo.green_payload ++ [x00])
           (Demo.green_payload ++ [xff; xff]) Demo.green_packet);
    by vm_compute.
Defined.

Lemma bleak_callback_ignores_foreign_witness :
  bleak_callback (H:=demo) (pitch_q0 (H:=demo))
    {[ APPLE_MANUFACTURER_ID := [x02; x15; xa4] ]}
    = Ok (pitch_q0 (H:=demo), []).
Proof.
  apply (bleak_callback_ignores_foreign (H:=demo)).
  right. exists [x02; x15; xa4].
  split; [by vm_compute|].
  left. simpl. lia.
Defined.

Lemma simulation_fills_queue_witness :
  _start_beacon_simulation (H:=demo) 3 0 (pitch_q0 (H:=demo))
    = Some (Ok (Queue.Make 1
                  [reading_of (H:=demo) "simulated"
                     (Packet "a495bb40-c5b1-4b44-b512-1370f02d74df"
                        70 1035 0)],
                [Built (H:=demo)
                   (reading_of (H:=demo) "simulated"
                      (Packet "a495bb40-c5b1-4b44-b512-1370f02d74df"
                         70 1035 0))])).
Proof.
  apply (simulation_fills_queue (H:=demo) 3 0 (pitch_q0 (H:=demo)));
    [reflexivity | reflexivity | reflexivity | by vm_compute].
Defined.

Lemma startup_starts_enabled_in_order_witness :
  enabled_providers_or_error
    (pitch_main_startup (H:=demo) (Some [connected; switched_off]) []
       webhook ["http://hook"%string] 0)
  = Ok [connected; webhook "http://hook"].
Proof.
  destruct (startup_starts_enabled_in_order (H:=demo) is_enabled
              (Some [connected; switched_off]) [] webhook
              ["http://hook"%string] 0) as [Hres _].
  - intros provider w1 Hin. simpl in Hin.
    repeat (apply elem_of_cons in Hin as [->|Hin]; [reflexivity|]).
    by apply elem_of_nil in Hin.
  - intros provider w1 Hin. simpl in Hin.
    repeat (apply elem_of_cons in Hin as [->|Hin]; [by eexists|]).
    by apply elem_of_nil in Hin.
  - exact Hres.
Defined.

Lemma startup_aborts_on_failing_start_witness :
  enabled_providers_or_error
    (pitch_main_startup (H:=demo) (Some [connected; refusing; switched_off])
       [] webhook [] 0)
  = Raise (Exception "no route to host").
Proof.
  destruct (startup_aborts_on_failing_start (H:=demo) is_enabled
              (Some [connected; refusing; switched_off]) []
              [connected] [switched_off] refusing
              (Exception "no route to host") webhook [] 0) as [Hres _].
  - reflexivity.
  - intros provider w1 Hin.
    apply elem_of_cons in Hin as [->|Hin]; [reflexivity|].
    by apply elem_of_nil in Hin.
  - intros provider w1 Hin.
    apply elem_of_cons in Hin as [->|Hin]; [by eexists|].
    by apply elem_of_nil in Hin.
  - reflexivity.
  - reflexivity.
  - exact Hres.
Defined.

Lemma only_started_providers_are_updated_witness :
  exists s',
    run (H:=demo) (sink <$> [connected; webhook "http://hook"]) false 0 0
      [Consume]
      (Build_System (H:=demo) (Queue.Make 1 [Demo.green_reading 1 0]) 0
         false [])
    = Ok s'.
Proof.
  destruct (only_started_providers_are_updated (H:=demo)
              (Some [connected; switched_off]) []
              [connected; webhook "http://hook"] webhook
              ["http://hook"%string] 0 false 0 0 [Consume]
              (Build_System (H:=demo) (Queue.Make 1 [Demo.green_reading 1 0])
                 0 false []))
    as (s' & Hrun & _); [reflexivity | reflexivity |].
  by exists s'.
Defined.

Lemma scanner_returns_within_budget_witness :
  exists w2,
    _run_bleak_scanner (H:=demo) scanner_start scanner_stop never_cancelled
      4 3 0
    = Some (w2,
            [ScannerStartedLine; ScannerStart; ReadyLine; ScannerStop;
             ScannerStoppedLine],
            Ok ()).
Proof.
  destruct (scanner_returns_within_budget (H:=demo) scanner_start
              scanner_stop never_cancelled 4 3 0) as (w2 & _ & Hrun).
  - lia.
  - intros w0. change (w0 + 1 <= w0 + 1). lia.
  - by eexists.
  - simpl. lia.
  - by exists (scanner_stop w2).
Defined.

Lemma scanner_runs_forever_without_budget_witness :
  _run_bleak_scanner (H:=demo) scanner_start scanner_stop never_cancelled
    10 0 0 = None.
Proof.
  apply (scanner_runs_forever_without_budget (H:=demo) scanner_start
           scanner_stop never_cancelled 10 0 0);
    [lia | reflexivity | by eexists].
Defined.





Lemma influx_reliable_server_batches_witness :
  Z.of_nat
    (length
       (DemoInflux.updates DemoInflux.reliable DemoInflux.config
          [Demo.green_reading 1 0; Demo.red_reading 1 0;
           Demo.green_reading 1 0] [] 0%nat).1.1) = 1.
Proof.
  pose proof (influx_reliable_server_batches (H:=demo) Demo.color
                DemoInflux.name DemoInflux.temp DemoInflux.temp Demo.gravity
                Demo.gravity Demo.gravity Demo.gravity DemoInflux.reliable
                DemoInflux.sleep DemoInflux.config
                [Demo.green_reading 1 0; Demo.red_reading 1 0;
                 Demo.green_reading 1 0] [] 0%nat
                (fun _ _ _ => eq_refl) ltac:(simpl; lia) ltac:(simpl; lia)
                ltac:(simpl; lia)) as Hw.
  unfold DemoInflux.updates.
  destruct (InfluxDb2.updates _ _ _ _ _ _ _ _ _ _ _ _ _ _) as [[batch' srv'] ev].
  destruct Hw as [Hw _]. exact Hw.
Defined.

Lemma influx_no_retries_never_writes_witness :
  (DemoInflux.updates DemoInflux.down DemoInflux.no_retries
     [Demo.green_reading 1 0; Demo.red_reading 1 0; Demo.green_reading 1 0]
     [] 0%nat).1.2 = 0%nat.
Proof.
  pose proof (influx_no_retries_never_writes (H:=demo) Demo.color
                DemoInflux.name DemoInflux.temp DemoInflux.temp Demo.gravity
                Demo.gravity Demo.gravity Demo.gravity DemoInflux.down
                DemoInflux.sleep DemoInflux.no_retries
                [Demo.green_reading 1 0; Demo.red_reading 1 0;
                 Demo.green_reading 1 0] [] 0%nat ltac:(simpl; lia)) as Hw.
  unfold DemoInflux.updates.
  destruct (InfluxDb2.updates _ _ _ _ _ _ _ _ _ _ _ _ _ _) as [[batch' srv'] ev].
  destruct Hw as (_ & Hsrv & _). exact Hsrv.
Defined.

Lemma consumer_drains_queue_witness :
  (_run_queue_consumer (H:=demo) 2 [Demo.steady 1 0] false 0
     (Queue.Make 2 [Demo.green_reading 1 0; Demo.red_reading 1 0]) 0).1.1.1
  = Queue.Make 2 [].
Proof.
  pose proof (consumer_drains_queue (H:=demo) [Demo.steady 1 0] false 0
                (Queue.Make 2 [Demo.green_reading 1 0; Demo.red_reading 1 0])
                0 ltac:(lia)) as Hw.
  simpl length in Hw.
  destruct (_run_queue_consumer _ _ _ _ _ _) as [[[q' w'] ev] ret].
  destruct Hw as [Hq _]. exact Hq.
Defined.

End MoreExamples.
